(** * React-fundamental-hooks: a shallow embedding of the hooks and their
      specification

    The repository is a handful of React hooks.  Each hook is a few lines of
    wiring around two host facilities, the timer queue ([setTimeout] /
    [clearTimeout]) and [fetch], and around React's own [useState] /
    [useEffect] / [useRef] cells.  The embedding makes those cells explicit
    fields of a per-hook state record, represents a timer callback by the
    variables its closure captures, and turns everything the environment
    decides (a re-render with new arguments, time passing, a response
    arriving) into an event that steps the state.

    - [Timers]             the host timer queue
    - [DebouncedValue]     unnamed/part_001 (useDebouncedValue)
    - [DebouncedFunction]  src/useDebouncedFunction.jsx
    - [Fetcher]            unnamed/part_000 (useCustomFetcher)
    - [Form]               the form state controller of spec section 4.1 *)

From Stdlib Require Import ZArith Lia DecimalString.
From stdpp Require Import gmap strings list fin_maps.

#[local] Set Warnings "-clear-no-such-hyp".

(** ** JavaScript values

    The hooks are polymorphic in the values they carry around; only their
    identity matters ([Object.is] in a dependency array).  Numbers are
    integers here, so [Object.is] is plain equality; an object is its
    reference.  A [JsVal] is data: [JRef] refers to an object that is not a
    function, and no [JsVal] is one.  (A function given to a [useState]
    setter is called as an updater instead of being stored; the function a
    hook wraps is a [fn_ref] of its own, see [DebouncedFunction].) *)

Inductive JsVal : Type :=
| JUndefined
| JNull
| JBool (b : bool)
| JNum (n : Z)
| JStr (s : string)
| JRef (l : nat).

#[global] Instance JsVal_eq_dec : EqDecision JsVal.
Proof. solve_decision. Defined.

Definition object_is (a b : JsVal) : bool := bool_decide (a = b).

(** ** The host timer queue

    [setTimeout(cb, delay)] hands out a fresh positive id and queues [cb] to
    run once the clock has reached the current time plus the delay the host
    grants; [clearTimeout(id)] drops the queued entry with that id and does
    nothing for any other id.  Time is counted in whole milliseconds.  A
    callback is represented by its captured variables, of type [A]; what
    running it does is up to the hook that owns the queue.

    The host keeps a delay in a signed 32-bit range.  Node grants a delay
    from 1 to [TIMEOUT_MAX] as it is and turns any other into 1 ms, which is
    the rule taken here; a browser wraps the delay to 32 bits and counts a
    negative result as zero, so the two differ only outside 1 to
    [TIMEOUT_MAX], and only in how soon "at once" is. *)

Module Timers.

Record timer (A : Type) : Type := Timer {
  tid : nat;
  due : nat;
  payload : A
}.
Arguments Timer {A}.
Arguments tid {A}.
Arguments due {A}.
Arguments payload {A}.

(** One callback invocation: when it ran, which timer it was, what it had
    captured. *)
Record firing (A : Type) : Type := Firing {
  at_ms : nat;
  fired_tid : nat;
  fired_payload : A
}.
Arguments Firing {A}.
Arguments at_ms {A}.
Arguments fired_tid {A}.
Arguments fired_payload {A}.

Record host (A : Type) : Type := Host {
  now : nat;
  next_id : nat;
  pending : list (timer A)
}.
Arguments Host {A}.
Arguments now {A}.
Arguments next_id {A}.
Arguments pending {A}.

Definition TIMEOUT_MAX : Z := 2147483647.

(** The delay the host grants for a requested [delay]. *)
Definition timeout_ms (delay : Z) : nat :=
  if ((1 <=? delay) && (delay <=? TIMEOUT_MAX))%Z then Z.to_nat delay else 1.

(** The requested delay is one the host grants as it is. *)
Definition honoured (delay : Z) : Prop := (1 ≤ delay ≤ TIMEOUT_MAX)%Z.

Arguments timeout_ms : simpl never.

Definition boot {A : Type} : host A :=
  {| now := 0; next_id := 1; pending := [] |}.

Definition setTimeout {A : Type} (cb : A) (delay : Z) (h : host A)
  : nat * host A :=
  (next_id h,
   {| now := now h;
      next_id := S (next_id h);
      pending := pending h ++
        [ {| tid := next_id h; due := now h + timeout_ms delay; payload := cb |} ]
   |}).

Definition clearTimeout {A : Type} (id : nat) (h : host A) : host A :=
  {| now := now h;
     next_id := next_id h;
     pending := filter (λ t, tid t ≠ id) (pending h) |}.

Definition fire_at {A : Type} (ms : nat) (t : timer A) : firing A :=
  {| at_ms := ms; fired_tid := tid t; fired_payload := payload t |}.

(** One turn of the event loop at the current instant: every queued timer
    whose time has come runs, in queue order, and leaves the queue. *)
Definition run_due {A : Type} (h : host A) : list (firing A) * host A :=
  (fire_at (now h) <$> filter (λ t, due t ≤ now h) (pending h),
   {| now := now h;
      next_id := next_id h;
      pending := filter (λ t, ¬ due t ≤ now h) (pending h) |}).

Definition advance {A : Type} (h : host A) : host A :=
  {| now := S (now h); next_id := next_id h; pending := pending h |}.

(** [dt] milliseconds pass with nothing else happening. *)
Fixpoint elapse {A : Type} (dt : nat) (h : host A)
  : list (firing A) * host A :=
  let '(fs, h1) := run_due h in
  match dt with
  | 0 => (fs, h1)
  | S n => let '(gs, h2) := elapse n (advance h1) in (fs ++ gs, h2)
  end.

Lemma timeout_ms_honoured (delay : Z) :
  honoured delay → timeout_ms delay = Z.to_nat delay.
Proof.
  unfold honoured, timeout_ms. intros [Hlo Hhi].
  apply Z.leb_le in Hlo. apply Z.leb_le in Hhi. by rewrite Hlo, Hhi.
Qed.

Lemma timeout_ms_positive (delay : Z) : 1 ≤ timeout_ms delay.
Proof.
  unfold timeout_ms.
  destruct (1 <=? delay)%Z eqn:Hlo; simpl; [|lia].
  destruct (delay <=? TIMEOUT_MAX)%Z; [|lia].
  apply Z.leb_le in Hlo. lia.
Qed.

Section Facts.
Context {A : Type}.
Implicit Types (h : host A) (t : timer A).

Lemma filter_none (P : timer A → Prop) `{!∀ t, Decision (P t)} (l : list (timer A)) :
  Forall (λ t, ¬ P t) l → filter P l = [].
Proof.
  induction 1 as [|t l Ht _ IH]; [done|].
  rewrite filter_cons. destruct (decide (P t)); [contradiction|done].
Qed.

Lemma filter_all (P : timer A → Prop) `{!∀ t, Decision (P t)} (l : list (timer A)) :
  Forall P l → filter P l = l.
Proof.
  induction 1 as [|t l Ht _ IH]; [done|].
  rewrite filter_cons. destruct (decide (P t)); [by rewrite IH|contradiction].
Qed.

Lemma elapse_0 h : elapse 0 h = run_due h.
Proof. reflexivity. Qed.

Lemma elapse_S n h :
  elapse (S n) h =
  (let '(fs, h1) := run_due h in
   let '(gs, h2) := elapse n (advance h1) in (fs ++ gs, h2)).
Proof. reflexivity. Qed.

Lemma run_due_idle h :
  Forall (λ t, now h < due t) (pending h) →
  run_due h = ([], h).
Proof.
  intros Hq. unfold run_due.
  rewrite filter_none, filter_all; [by destruct h| |].
  - eapply Forall_impl; [exact Hq|]. simpl. lia.
  - eapply Forall_impl; [exact Hq|]. simpl. lia.
Qed.

(** Nothing runs while every queued timer is still in the future. *)
Lemma elapse_idle dt h :
  Forall (λ t, now h + dt < due t) (pending h) →
  elapse dt h = ([], {| now := now h + dt; next_id := next_id h;
                        pending := pending h |}).
Proof.
  revert h. induction dt as [|n IH]; intros h Hq;
    [rewrite elapse_0|rewrite elapse_S].
  - rewrite run_due_idle.
    + destruct h; simpl. by rewrite Nat.add_0_r.
    + eapply Forall_impl; [exact Hq|]. simpl. lia.
  - rewrite run_due_idle.
    + rewrite IH; simpl.
      * do 2 f_equal. lia.
      * eapply Forall_impl; [exact Hq|]. simpl. lia.
    + eapply Forall_impl; [exact Hq|]. simpl. lia.
Qed.

Lemma elapse_empty dt h :
  pending h = [] →
  elapse dt h = ([], {| now := now h + dt; next_id := next_id h;
                        pending := [] |}).
Proof.
  intros He. rewrite elapse_idle; rewrite He; [done|constructor].
Qed.

(** A single queued timer runs exactly once, at its due time, as soon as
    the elapsed time covers it. *)
Lemma elapse_single dt h t :
  pending h = [t] →
  now h ≤ due t →
  due t ≤ now h + dt →
  elapse dt h = ([fire_at (due t) t],
                 {| now := now h + dt; next_id := next_id h; pending := [] |}).
Proof.
  revert h. induction dt as [|n IH]; intros h Hp Hlo Hhi.
  - assert (due t = now h) as Hd by lia.
    rewrite elapse_0. unfold run_due. rewrite Hp, !filter_cons, !filter_nil.
    destruct (decide (due t ≤ now h)); [|lia].
    destruct (decide (¬ due t ≤ now h)); [lia|].
    simpl. rewrite Hd. do 2 f_equal. lia.
  - destruct (decide (due t = now h)) as [Hd|Hd].
    + rewrite elapse_S. unfold run_due at 1.
      rewrite Hp, !filter_cons, !filter_nil.
      destruct (decide (due t ≤ now h)); [|lia].
      destruct (decide (¬ due t ≤ now h)); [lia|].
      rewrite elapse_empty by done. simpl.
      rewrite Hd. do 2 f_equal. lia.
    + rewrite elapse_S, run_due_idle.
      * rewrite (IH (advance h)); simpl; [|done|lia|lia].
        do 2 f_equal. lia.
      * rewrite Hp. repeat constructor. lia.
Qed.

(** Whatever happens while time passes, only timers that were queued can
    run, exactly the timers still in the future stay queued, and no id is
    handed out. *)
Lemma run_due_sound h fs h' :
  run_due h = (fs, h') →
  now h' = now h ∧ next_id h' = next_id h ∧
  pending h' = filter (λ t, now h < due t) (pending h) ∧
  (∀ f, f ∈ fs → ∃ t, t ∈ pending h ∧ fired_tid f = tid t
                      ∧ fired_payload f = payload t).
Proof.
  unfold run_due. intros [= <- <-]. simpl. repeat split.
  - apply list_filter_iff. intros t. lia.
  - intros f Hf. apply list_elem_of_fmap in Hf as (t & -> & Ht).
    apply list_elem_of_filter in Ht. exists t. tauto.
Qed.

Lemma elapse_sound dt h fs h' :
  elapse dt h = (fs, h') →
  now h' = now h + dt ∧ next_id h' = next_id h ∧
  pending h' = filter (λ t, now h + dt < due t) (pending h) ∧
  (∀ f, f ∈ fs → ∃ t, t ∈ pending h ∧ fired_tid f = tid t
                      ∧ fired_payload f = payload t).
Proof.
  revert h fs h'. induction dt as [|n IH]; intros h fs h';
    [rewrite elapse_0|rewrite elapse_S].
  - intros E. apply run_due_sound in E as (Hn & Hi & Hp & Hf).
    rewrite Nat.add_0_r. repeat split; try done.
  - destruct (run_due h) as [gs h1] eqn:E.
    destruct (elapse n (advance h1)) as [ks h2] eqn:E2.
    intros [= <- <-].
    apply run_due_sound in E as (Hn & Hi & Hp & Hf).
    apply IH in E2 as (Hn2 & Hi2 & Hp2 & Hf2). simpl in *.
    repeat split.
    + lia.
    + congruence.
    + rewrite Hp2, Hp, list_filter_filter.
      apply list_filter_iff. intros t. lia.
    + intros f Hin. apply elem_of_app in Hin as [Hin|Hin]; [by apply Hf|].
      destruct (Hf2 f Hin) as (t & Ht & ?). exists t. split; [|done].
      rewrite Hp in Ht. apply list_elem_of_filter in Ht. tauto.
Qed.

(** Time passing neither creates nor loses a timer: each queued one has
    either run or is still queued. *)
Lemma run_due_conserves h fs h' :
  run_due h = (fs, h') →
  length fs + length (pending h') = length (pending h).
Proof.
  unfold run_due. intros [= <- <-]. simpl. rewrite length_fmap.
  induction (pending h) as [|t l IH]; [done|].
  rewrite !filter_cons.
  destruct (decide (due t ≤ now h)), (decide (¬ due t ≤ now h));
    simpl; lia.
Qed.

Lemma elapse_conserves dt h fs h' :
  elapse dt h = (fs, h') →
  length fs + length (pending h') = length (pending h).
Proof.
  revert h fs h'. induction dt as [|n IH]; intros h fs h';
    [rewrite elapse_0|rewrite elapse_S].
  - apply run_due_conserves.
  - destruct (run_due h) as [gs h1] eqn:E.
    destruct (elapse n (advance h1)) as [ks h2] eqn:E2.
    intros [= <- <-].
    apply run_due_conserves in E. apply IH in E2. simpl in E2.
    rewrite length_app. lia.
Qed.

End Facts.

End Timers.

(** ** useDebouncedValue (unnamed/part_001)

    [useState()] is the cell [debouncedValue], initially [undefined].  The
    effect has dependencies [[value, delay]]: it runs on the first render and
    on every render where one of the two differs from the previous render;
    before it runs again React calls the cleanup the previous run returned,
    which clears the timer that run had set.  The timer callback captures
    [value] and stores it in the cell.  [emitted] records those callback
    invocations. *)

Module DebouncedValue.
Import Timers.

Record state : Type := State {
  timers : host JsVal;
  debouncedValue : JsVal;
  deps : option (JsVal * Z);
  cleanup : option nat;
  emitted : list (firing JsVal)
}.

Definition default_delay : Z := 500.

(** The hook before its first render. *)
Definition unmounted : state :=
  {| timers := boot; debouncedValue := JUndefined; deps := None;
     cleanup := None; emitted := [] |}.

Definition deps_changed (old : option (JsVal * Z)) (value : JsVal) (delay : Z)
  : bool :=
  match old with
  | None => true
  | Some (v, d) => negb (object_is v value && (d =? delay)%Z)
  end.

(** One render of a component calling [useDebouncedValue(value, delay)];
    [None] is an omitted [delay]. *)
Definition useDebouncedValue (value : JsVal) (delay_arg : option Z)
    (st : state) : state :=
  let delay := default default_delay delay_arg in
  if deps_changed (deps st) value delay then
    let h1 := match cleanup st with
              | Some timerId => clearTimeout timerId (timers st)
              | None => timers st
              end in
    let '(timerId, h2) := setTimeout value delay h1 in
    {| timers := h2; debouncedValue := debouncedValue st;
       deps := Some (value, delay); cleanup := Some timerId;
       emitted := emitted st |}
  else st.

(** The timer callback: [setDebouncedValue(value)].  The captured value is
    a [JsVal], so it is not a function and the setter stores it as it is. *)
Definition on_timer (st : state) (f : firing JsVal) : state :=
  {| timers := timers st; debouncedValue := fired_payload f;
     deps := deps st; cleanup := cleanup st;
     emitted := emitted st ++ [f] |}.

Definition with_timers (h : host JsVal) (st : state) : state :=
  {| timers := h; debouncedValue := debouncedValue st; deps := deps st;
     cleanup := cleanup st; emitted := emitted st |}.

Definition elapse (dt : nat) (st : state) : state :=
  let '(fs, h) := Timers.elapse dt (timers st) in
  foldl on_timer (with_timers h st) fs.

Inductive event : Type :=
| Render (value : JsVal) (delay_arg : option Z)
| Elapse (dt : nat).

Definition step (st : state) (e : event) : state :=
  match e with
  | Render value delay_arg => useDebouncedValue value delay_arg st
  | Elapse dt => elapse dt st
  end.

Definition run (evs : list event) (st : state) : state := foldl step st evs.

Definition elapsed (evs : list event) : nat :=
  foldr (λ e n, match e with Elapse dt => dt + n | Render _ _ => n end) 0 evs.

(** No new input: every render passes the same arguments again. *)
Definition same_input (value : JsVal) (delay_arg : option Z) (e : event)
  : Prop :=
  match e with
  | Render v d => v = value ∧ default default_delay d = default default_delay delay_arg
  | Elapse _ => True
  end.

(** *** Facts about the hook *)

Lemma foldl_on_timer (fs : list (firing JsVal)) (st : state) :
  foldl on_timer st fs =
  {| timers := timers st;
     debouncedValue := default (debouncedValue st) (fired_payload <$> last fs);
     deps := deps st; cleanup := cleanup st;
     emitted := emitted st ++ fs |}.
Proof.
  revert st. induction fs as [|f fs IH] using rev_ind; intros st.
  - simpl. rewrite app_nil_r. by destruct st.
  - rewrite foldl_app, IH. unfold on_timer. simpl.
    rewrite last_snoc. simpl. f_equal. by rewrite app_assoc.
Qed.

(** What every state the hook can be in looks like: at most one timer is
    queued, it is the one the current cleanup would clear, and ids already
    used are below the next id. *)
Record inv (st : state) : Prop := Inv {
  inv_queue :
    pending (timers st) = [] ∨
    ∃ t, pending (timers st) = [t] ∧ cleanup st = Some (tid t) ∧
         tid t < next_id (timers st);
  inv_emitted :
    Forall (λ f, fired_tid f < next_id (timers st)) (emitted st)
}.

Lemma inv_unmounted : inv unmounted.
Proof. split; simpl; [by left|constructor]. Qed.

(** A render with new arguments leaves exactly the new timer queued. *)
Lemma render_arms (value : JsVal) (delay_arg : option Z) (st : state) :
  inv st →
  deps_changed (deps st) value (default default_delay delay_arg) = true →
  useDebouncedValue value delay_arg st =
  {| timers :=
       {| now := now (timers st);
          next_id := S (next_id (timers st));
          pending := [ {| tid := next_id (timers st);
                          due := now (timers st)
                                 + timeout_ms (default default_delay delay_arg);
                          payload := value |} ] |};
     debouncedValue := debouncedValue st;
     deps := Some (value, default default_delay delay_arg);
     cleanup := Some (next_id (timers st));
     emitted := emitted st |}.
Proof.
  intros [Hq _] Hc. unfold useDebouncedValue. rewrite Hc.
  destruct Hq as [He|(t & Ht & Hcl & _)].
  - destruct (cleanup st); unfold setTimeout, clearTimeout; simpl;
      by rewrite He.
  - rewrite Hcl. unfold setTimeout, clearTimeout. simpl. rewrite Ht.
    rewrite filter_cons, filter_nil.
    destruct (decide (tid t ≠ tid t)); [congruence|done].
Qed.

Lemma render_same (value : JsVal) (delay_arg : option Z) (st : state) :
  deps_changed (deps st) value (default default_delay delay_arg) = false →
  useDebouncedValue value delay_arg st = st.
Proof. intros Hc. unfold useDebouncedValue. by rewrite Hc. Qed.

Lemma deps_changed_refl (v : JsVal) (d : Z) :
  deps_changed (Some (v, d)) v d = false.
Proof.
  unfold deps_changed, object_is. rewrite bool_decide_eq_true_2 by done.
  by rewrite Z.eqb_refl.
Qed.

Lemma inv_step (st : state) (e : event) : inv st → inv (step st e).
Proof.
  intros Hi. destruct e as [v d|dt]; simpl.
  - destruct (deps_changed (deps st) v (default default_delay d)) eqn:Hc.
    + rewrite render_arms by done. destruct Hi as [_ He].
      split; simpl.
      * right. eexists. split; [done|]. simpl. split; [done|lia].
      * eapply Forall_impl; [exact He|]. simpl. lia.
    + by rewrite render_same.
  - unfold elapse.
    destruct (Timers.elapse dt (timers st)) as [fs h] eqn:E.
    apply elapse_sound in E as (Hn & Hid & Hp & Hf).
    rewrite foldl_on_timer. destruct Hi as [Hq He]. split; simpl.
    + rewrite Hp, Hid.
      destruct Hq as [->|(t & -> & Hcl & Hlt)]; [by left|].
      rewrite filter_cons, filter_nil.
      destruct (decide (now (timers st) + dt < due t)); [|by left].
      right. by exists t.
    + rewrite Hid. apply Forall_app. split; [done|].
      apply Forall_forall. intros f Hin.
      destruct (Hf f Hin) as (t & Ht & -> & _).
      destruct Hq as [Hq|(t' & Hq & _ & Hlt)]; rewrite Hq in Ht.
      * by apply elem_of_nil in Ht.
      * apply list_elem_of_singleton in Ht. by subst.
Qed.

Lemma inv_run (evs : list event) (st : state) : inv st → inv (run evs st).
Proof.
  revert st. induction evs as [|e evs IH]; intros st Hi; [done|].
  apply IH. by apply inv_step.
Qed.

(** The state [n] ms later when nothing has run, and the state [n] ms later
    when timer [t] has run in between. *)
Definition waiting (n : nat) (st : state) : state :=
  with_timers {| now := now (timers st) + n; next_id := next_id (timers st);
                 pending := pending (timers st) |} st.

Definition fired (n : nat) (t : timer JsVal) (st : state) : state :=
  {| timers := {| now := now (timers st) + n; next_id := next_id (timers st);
                  pending := [] |};
     debouncedValue := payload t; deps := deps st; cleanup := cleanup st;
     emitted := emitted st ++ [fire_at (due t) t] |}.

Lemma waiting_0 (st : state) : waiting 0 st = st.
Proof.
  destruct st as [[n i p] v d c e]. unfold waiting, with_timers. simpl.
  by rewrite Nat.add_0_r.
Qed.

Lemma waiting_waiting (a b : nat) (st : state) :
  waiting b (waiting a st) = waiting (a + b) st.
Proof. unfold waiting, with_timers. simpl. do 2 f_equal. lia. Qed.

Lemma waiting_fired (a b : nat) (t : timer JsVal) (st : state) :
  waiting b (fired a t st) = fired (a + b) t st.
Proof. unfold waiting, fired, with_timers. simpl. do 2 f_equal. lia. Qed.

Lemma fired_waiting (a b : nat) (t : timer JsVal) (st : state) :
  fired b t (waiting a st) = fired (a + b) t st.
Proof. unfold waiting, fired, with_timers. simpl. do 2 f_equal. lia. Qed.

Lemma elapse_waits (dt : nat) (st : state) :
  Forall (λ t, now (timers st) + dt < due t) (pending (timers st)) →
  elapse dt st = waiting dt st.
Proof. intros Hq. unfold elapse. by rewrite elapse_idle. Qed.

Lemma elapse_fires (dt : nat) (st : state) (t : timer JsVal) :
  pending (timers st) = [t] →
  now (timers st) ≤ due t →
  due t ≤ now (timers st) + dt →
  elapse dt st = fired dt t st.
Proof.
  intros Hp Hlo Hhi. unfold elapse. by rewrite (elapse_single dt _ t).
Qed.

Lemma run_cons (e : event) (evs : list event) (st : state) :
  run (e :: evs) st = run evs (step st e).
Proof. reflexivity. Qed.

Lemma run_app (evs1 evs2 : list event) (st : state) :
  run (evs1 ++ evs2) st = run evs2 (run evs1 st).
Proof. apply foldl_app. Qed.

Lemma same_input_render (v v' : JsVal) (darg d' : option Z) (st : state) :
  deps st = Some (v, default default_delay darg) →
  same_input v darg (Render v' d') →
  step st (Render v' d') = st.
Proof.
  intros Hd [-> Hs]. simpl. apply render_same.
  rewrite Hd, Hs. apply deps_changed_refl.
Qed.

(** With nothing queued, no new input changes nothing but the clock. *)
Lemma quiet_settled (v : JsVal) (darg : option Z) (evs : list event) (st : state) :
  deps st = Some (v, default default_delay darg) →
  pending (timers st) = [] →
  Forall (same_input v darg) evs →
  run evs st = waiting (elapsed evs) st.
Proof.
  revert st. induction evs as [|e evs IH]; intros st Hd Hp Hs.
  - simpl. by rewrite waiting_0.
  - apply Forall_cons in Hs as [He Hs]. rewrite run_cons.
    destruct e as [v' d'|dt].
    + rewrite (same_input_render v v' darg d') by done. by apply IH.
    + simpl step. rewrite elapse_waits by (rewrite Hp; constructor).
      rewrite IH by done. apply waiting_waiting.
Qed.

(** With one timer queued and no new input, either the timer is still
    waiting or it has run, at its due time, and set the value. *)
Lemma quiet_cases (v : JsVal) (darg : option Z) (evs : list event)
    (st : state) (t : timer JsVal) :
  deps st = Some (v, default default_delay darg) →
  pending (timers st) = [t] →
  now (timers st) ≤ due t →
  Forall (same_input v darg) evs →
  (now (timers st) + elapsed evs ≤ due t ∧
   run evs st = waiting (elapsed evs) st) ∨
  (due t ≤ now (timers st) + elapsed evs ∧
   run evs st = fired (elapsed evs) t st).
Proof.
  revert st. induction evs as [|e evs IH]; intros st Hd Hp Hlo Hs.
  - left. simpl. split; [lia|by rewrite waiting_0].
  - apply Forall_cons in Hs as [He Hs]. rewrite run_cons.
    destruct e as [v' d'|dt].
    + rewrite (same_input_render v v' darg d') by done. by apply IH.
    + simpl step. simpl elapsed.
      destruct (decide (now (timers st) + dt < due t)) as [Hlt|Hge].
      * rewrite elapse_waits by (rewrite Hp; repeat constructor; lia).
        destruct (IH (waiting dt st)) as [[Hle ->]|[Hle ->]];
          [done|done|simpl; lia|done|..]; simpl in Hle.
        -- left. split; [lia|apply waiting_waiting].
        -- right. split; [lia|apply fired_waiting].
      * rewrite (elapse_fires dt st t) by (done || lia).
        right. split; [lia|].
        rewrite (quiet_settled v darg) by done. apply waiting_fired.
Qed.

(** A timer id that has been handed out, is not queued and has not run
    will never run. *)
Definition cancelled (c : nat) (st : state) : Prop :=
  c < next_id (timers st) ∧
  (c ∉ (tid <$> pending (timers st))) ∧
  (c ∉ (fired_tid <$> emitted st)).

Lemma cancelled_step (c : nat) (st : state) (e : event) :
  cancelled c st → cancelled c (step st e).
Proof.
  intros (Hlt & Hp & He). destruct e as [v d|dt]; simpl.
  - unfold useDebouncedValue.
    destruct (deps_changed _ _ _); [|done].
    assert (∀ h : host JsVal,
      next_id h = next_id (timers st) →
      pending h ⊆ pending (timers st) →
      cancelled c
        {| timers := (setTimeout v (default default_delay d) h).2;
           debouncedValue := debouncedValue st;
           deps := Some (v, default default_delay d);
           cleanup := Some (setTimeout v (default default_delay d) h).1;
           emitted := emitted st |}) as Hset.
    { intros h Hid Hsub. unfold cancelled, setTimeout. simpl.
      rewrite Hid. split; [lia|]. split; [|done].
      rewrite fmap_app, elem_of_app. simpl. intros [Hin|Hin].
      - apply Hp. apply list_elem_of_fmap in Hin as (t & -> & Ht).
        apply list_elem_of_fmap. exists t. split; [done|]. by apply Hsub.
      - apply list_elem_of_singleton in Hin. lia. }
    destruct (cleanup st) as [id|].
    + apply (Hset (clearTimeout id (timers st))); [done|].
      intros t Ht. simpl in Ht. apply list_elem_of_filter in Ht. tauto.
    + by apply (Hset (timers st)).
  - unfold elapse.
    destruct (Timers.elapse dt (timers st)) as [fs h] eqn:E.
    apply elapse_sound in E as (Hn & Hid & Hq & Hf).
    rewrite foldl_on_timer. unfold cancelled. simpl.
    rewrite Hid. split; [done|]. split.
    + rewrite Hq. intros Hin. apply Hp.
      apply list_elem_of_fmap in Hin as (t & -> & Ht).
      apply list_elem_of_filter in Ht as [_ Ht].
      apply list_elem_of_fmap. by exists t.
    + rewrite fmap_app, elem_of_app. intros [Hin|Hin]; [done|].
      apply list_elem_of_fmap in Hin as (f & -> & Hin).
      destruct (Hf f Hin) as (t & Ht & Heq & _). apply Hp.
      apply list_elem_of_fmap. exists t. by split.
Qed.

Lemma cancelled_run (c : nat) (evs : list event) (st : state) :
  cancelled c st → cancelled c (run evs st).
Proof.
  revert st. induction evs as [|e evs IH]; intros st Hc; [done|].
  apply IH. by apply cancelled_step.
Qed.

(** The delay the host grants to a render is never shorter than [d] ms. *)
Definition no_sooner (d : nat) (e : event) : Prop :=
  match e with
  | Render _ delay_arg => d ≤ timeout_ms (default default_delay delay_arg)
  | Elapse _ => True
  end.

(** The same events with every omitted delay written out. *)
Definition explicit_delay (e : event) : event :=
  match e with
  | Render v None => Render v (Some 500%Z)
  | _ => e
  end.

(** While no timer can be due, the cell keeps its initial content. *)
Lemma stays_undefined (d : nat) (evs : list event) (st : state) :
  debouncedValue st = JUndefined →
  Forall (λ t, d ≤ due t) (pending (timers st)) →
  Forall (no_sooner d) evs →
  now (timers st) + elapsed evs < d →
  debouncedValue (run evs st) = JUndefined.
Proof.
  revert st. induction evs as [|e evs IH]; intros st Hu Hp Hs Ht; [done|].
  apply Forall_cons in Hs as [He Hs]. rewrite run_cons.
  destruct e as [v' d'|dt]; simpl in Ht.
  - apply IH; try done.
    + simpl. unfold useDebouncedValue. by destruct (deps_changed _ _ _).
    + simpl. unfold useDebouncedValue.
      destruct (deps_changed _ _ _); [|done].
      simpl in He.
      destruct (cleanup st) as [id|]; simpl; apply Forall_app;
        (split; [|repeat constructor; simpl; lia]); [|done].
      apply Forall_forall. intros t Hin.
      apply list_elem_of_filter in Hin as [_ Hin].
      by eapply Forall_forall in Hp.
    + simpl. unfold useDebouncedValue.
      destruct (deps_changed _ _ _); [|done]. by destruct (cleanup st).
  - simpl step.
    rewrite elapse_waits
      by (eapply Forall_impl; [exact Hp|]; simpl; intros; lia).
    apply IH; try done. simpl. lia.
Qed.

(** A delay outside the range the host grants is not waited for: the
    callback runs after 1 ms. *)
Example oversized_delay_updates_at_once :
  debouncedValue
    (run [Render (JStr "a") (Some 2147483648%Z); Elapse 1] unmounted)
  = JStr "a".
Proof. vm_compute. done. Qed.

Example typing_then_pause :
  let st := run [Render (JStr "a") None; Elapse 300;
                 Render (JStr "ab") None; Elapse 499] unmounted in
  debouncedValue st = JUndefined ∧
  debouncedValue (elapse 1 st) = JStr "ab" ∧
  emitted (elapse 1 st) = [Firing 800 2 (JStr "ab")].
Proof. vm_compute. done. Qed.

(** *** Unmounting, provenance of the value, and continuous change *)

(** When the component unmounts React runs the cleanup the last effect run
    returned: [clearTimeout(timerId)]. *)
Definition unmount (st : state) : state :=
  match cleanup st with
  | Some timerId => with_timers (clearTimeout timerId (timers st)) st
  | None => st
  end.

(** Renders that each pass a new value, each followed by a gap. *)
Definition typing (delay_arg : option Z) (vs : list (JsVal * nat))
  : list event :=
  vs ≫= λ c, [Render c.1 delay_arg; Elapse c.2].

(** Every render of [typing] changes the dependencies. *)
Fixpoint keeps_changing (prev : option (JsVal * Z)) (delay : Z)
    (vs : list (JsVal * nat)) : bool :=
  match vs with
  | [] => true
  | c :: vs' =>
      deps_changed prev c.1 delay && keeps_changing (Some (c.1, delay)) delay vs'
  end.

(** [v] was passed to the hook in some render of [evs]. *)
Definition rendered (v : JsVal) (evs : list event) : Prop :=
  ∃ delay_arg, Render v delay_arg ∈ evs.

Lemma rendered_app (v : JsVal) (evs more : list event) :
  rendered v evs → rendered v (evs ++ more).
Proof. intros [d Hd]. exists d. apply elem_of_app. by left. Qed.

(** The queued timer, if any, carries the value of the last render. *)
Lemma queued_is_latest (evs : list event) :
  let st := run evs unmounted in
  ∀ t, t ∈ pending (timers st) → ∃ d, deps st = Some (payload t, d).
Proof.
  induction evs as [|e evs IH] using rev_ind; simpl.
  - intros t Ht. by apply elem_of_nil in Ht.
  - rewrite run_app. simpl. set (st := run evs unmounted) in *.
    assert (inv st) as Hi by apply inv_run, inv_unmounted.
    destruct e as [v d|dt]; simpl.
    + destruct (deps_changed (deps st) v (default default_delay d)) eqn:Hc.
      * rewrite render_arms by done. simpl. intros t Ht.
        apply list_elem_of_singleton in Ht as ->. by eexists.
      * by rewrite render_same.
    + unfold elapse.
      destruct (Timers.elapse dt (timers st)) as [fs h] eqn:E.
      apply elapse_sound in E as (_ & _ & Hp & _).
      rewrite foldl_on_timer. simpl. rewrite Hp. intros t Ht.
      apply list_elem_of_filter in Ht as [_ Ht]. by apply IH.
Qed.

(** Whatever the cell or a queued timer holds was passed in by a render,
    and the cell holds what the last callback stored. *)
Lemma values_are_inputs (evs : list event) :
  let st := run evs unmounted in
  (∀ t, t ∈ pending (timers st) → rendered (payload t) evs) ∧
  (∀ f, f ∈ emitted st → rendered (fired_payload f) evs) ∧
  debouncedValue st = default JUndefined (fired_payload <$> last (emitted st)).
Proof.
  induction evs as [|e evs IH] using rev_ind; simpl.
  - split; [|split; [|done]]; intros ? H; by apply elem_of_nil in H.
  - rewrite run_app. simpl. set (st := run evs unmounted) in *.
    destruct IH as (Hp & He & Hv).
    destruct e as [v d|dt]; simpl.
    + unfold useDebouncedValue.
      destruct (deps_changed _ _ _); simpl.
      * split; [|split; [|done]].
        -- intros t Ht.
           assert (t ∈ pending (timers st) ∨ payload t = v) as [Hin| ->].
           { destruct (cleanup st); simpl in Ht;
               apply elem_of_app in Ht as [Ht|Ht].
             - apply list_elem_of_filter in Ht. tauto.
             - apply list_elem_of_singleton in Ht as ->. by right.
             - by left.
             - apply list_elem_of_singleton in Ht as ->. by right. }
           ++ by apply rendered_app, Hp.
           ++ exists d. apply elem_of_app. right. by left.
        -- intros f Hf. by apply rendered_app, He.
      * split; [|split; [|done]].
        -- intros t Ht. by apply rendered_app, Hp.
        -- intros f Hf. by apply rendered_app, He.
    + unfold elapse.
      destruct (Timers.elapse dt (timers st)) as [fs h] eqn:E.
      apply elapse_sound in E as (_ & _ & Hq & Hf).
      rewrite foldl_on_timer. simpl. split; [|split].
      * rewrite Hq. intros t Ht.
        apply list_elem_of_filter in Ht as [_ Ht]. by apply rendered_app, Hp.
      * intros f Hin. apply elem_of_app in Hin as [Hin|Hin].
        -- by apply rendered_app, He.
        -- destruct (Hf f Hin) as (t & Ht & _ & ->).
           by apply rendered_app, Hp.
      * rewrite last_app. destruct (last fs) as [f|]; [done|].
        simpl. exact Hv.
Qed.

(** Renders that keep changing the value, each less than the delay after
    the one before, never let a timer run. *)
Lemma typing_starves (delay_arg : option Z) (vs : list (JsVal * nat))
    (st : state) :
  inv st →
  Forall (λ c, c.2 < timeout_ms (default default_delay delay_arg)) vs →
  keeps_changing (deps st) (default default_delay delay_arg) vs = true →
  debouncedValue (run (typing delay_arg vs) st) = debouncedValue st ∧
  emitted (run (typing delay_arg vs) st) = emitted st.
Proof.
  revert st. induction vs as [|[v g] vs IH]; intros st Hi Hg Hk; [done|].
  apply Forall_cons in Hg as [Hg Hgs]. simpl in Hg, Hk.
  apply andb_true_iff in Hk as [Hc Hk].
  change (typing delay_arg ((v, g) :: vs))
    with (Render v delay_arg :: Elapse g :: typing delay_arg vs).
  rewrite !run_cons.
  pose proof (inv_step _ (Elapse g)
                (inv_step st (Render v delay_arg) Hi)) as Hi2.
  assert (step (step st (Render v delay_arg)) (Elapse g)
          = waiting g (useDebouncedValue v delay_arg st)) as Hstep.
  { simpl step. rewrite elapse_waits; [done|].
    rewrite render_arms by done. simpl. repeat constructor. simpl. lia. }
  rewrite Hstep in *.
  destruct (IH _ Hi2 Hgs) as [Hv He].
  - simpl. by rewrite render_arms by done.
  - rewrite Hv, He. simpl. by rewrite render_arms by done.
Qed.

End DebouncedValue.

(** ** useDebouncedFunction (src/useDebouncedFunction.jsx)

    [useRef(null)] is the cell [timeoutRef]; it survives re-renders, so every
    closure [useCallback] ever returned shares it.  A closure captures [fn]
    and [delay]; calling it with [args] clears the timer the cell names, if
    the cell is truthy, and stores the id of a new timer whose callback
    captures [fn] and [args].  [calls] records the invocations [fn(...args)]
    the timer callbacks make.  What [fn] does when invoked is its own
    business; the hook only ever passes it on, so it is a reference. *)

Module DebouncedFunction.
Import Timers.

(** The wrapped function, known by its identity only. *)
Definition fn_ref : Type := nat.

Record call : Type := Call {
  fn : fn_ref;
  args : list JsVal
}.

Record state : Type := State {
  timers : host call;
  timeoutRef : option nat;
  calls : list (firing call)
}.

Definition default_delay : Z := 500.

Definition mounted : state :=
  {| timers := boot; timeoutRef := None; calls := [] |}.

(** [if (timeoutRef.current)]: [null] and [0] are falsy. *)
Definition truthy (r : option nat) : bool :=
  match r with
  | Some (S _) => true
  | _ => false
  end.

Definition debouncedFunction (fn : fn_ref) (delay : Z) (args : list JsVal)
    (st : state) : state :=
  let h1 := if truthy (timeoutRef st)
            then match timeoutRef st with
                 | Some id => clearTimeout id (timers st)
                 | None => timers st
                 end
            else timers st in
  let '(id, h2) := setTimeout (Call fn args) delay h1 in
  {| timers := h2; timeoutRef := Some id; calls := calls st |}.

(** The closure the hook returns for [useDebouncedFunction(fn, delay)];
    [None] is an omitted [delay]. *)
Definition useDebouncedFunction (fn : fn_ref) (delay_arg : option Z)
  : list JsVal → state → state :=
  debouncedFunction fn (default default_delay delay_arg).

(** The timer callback: [fn(...args)]. *)
Definition on_timer (st : state) (f : firing call) : state :=
  {| timers := timers st; timeoutRef := timeoutRef st;
     calls := calls st ++ [f] |}.

Definition elapse (dt : nat) (st : state) : state :=
  let '(fs, h) := Timers.elapse dt (timers st) in
  foldl on_timer
    {| timers := h; timeoutRef := timeoutRef st; calls := calls st |} fs.

Inductive event : Type :=
| Invoke (fn : fn_ref) (delay_arg : option Z) (args : list JsVal)
| Elapse (dt : nat).

Definition step (st : state) (e : event) : state :=
  match e with
  | Invoke fn delay_arg args => useDebouncedFunction fn delay_arg args st
  | Elapse dt => elapse dt st
  end.

Definition run (evs : list event) (st : state) : state := foldl step st evs.

(** A burst: calls of the same closure, each followed by a gap, then a last
    call. *)
Definition burst (fn : fn_ref) (delay_arg : option Z)
    (cs : list (list JsVal * nat)) (last : list JsVal) : list event :=
  (cs ≫= λ c, [Invoke fn delay_arg c.1; Elapse c.2])
  ++ [Invoke fn delay_arg last].

Definition gaps (cs : list (list JsVal * nat)) : nat :=
  foldr (λ c n, c.2 + n) 0 cs.

(** The same events with every omitted delay written out. *)
Definition explicit_delay (e : event) : event :=
  match e with
  | Invoke f None a => Invoke f (Some 500%Z) a
  | _ => e
  end.

(** A delay outside the range the host grants is not waited for: the
    wrapped function is invoked after 1 ms. *)
Example oversized_delay_invokes_at_once :
  calls (run [Invoke 7 (Some 2147483648%Z) [JStr "a"]; Elapse 1] mounted)
  = [Firing 1 1 (Call 7 [JStr "a"])].
Proof. vm_compute. done. Qed.

Example keystrokes :
  let st := run (burst 7 (Some 300%Z)
                   [([JStr "r"], 120); ([JStr "re"], 299)] [JStr "rea"])
                mounted in
  calls (elapse 299 st) = [] ∧
  calls (elapse 300 st) =
    [Firing 719 3 (Call 7 [JStr "rea"])].
Proof. vm_compute. done. Qed.

(** *** Facts about the hook *)

Lemma calls_foldl (fs : list (firing call)) (st : state) :
  foldl on_timer st fs =
  {| timers := timers st; timeoutRef := timeoutRef st;
     calls := calls st ++ fs |}.
Proof.
  revert st. induction fs as [|f fs IH] using rev_ind; intros st.
  - simpl. rewrite app_nil_r. by destruct st.
  - rewrite foldl_app, IH. unfold on_timer. simpl. by rewrite app_assoc.
Qed.

(** At most one timer is queued, and it is the one [timeoutRef] names; ids
    are positive. *)
Record inv (st : state) : Prop := Inv {
  inv_queue :
    pending (timers st) = [] ∨
    ∃ t, pending (timers st) = [t] ∧ timeoutRef st = Some (tid t) ∧
         0 < tid t;
  inv_ids : 0 < next_id (timers st)
}.

Lemma inv_mounted : inv mounted.
Proof. split; simpl; [by left|lia]. Qed.

(** Whatever was queued, after a call exactly the new timer is. *)
Lemma call_arms (f : fn_ref) (delay : Z) (a : list JsVal) (st : state) :
  inv st →
  debouncedFunction f delay a st =
  {| timers :=
       {| now := now (timers st);
          next_id := S (next_id (timers st));
          pending := [ {| tid := next_id (timers st);
                          due := now (timers st) + timeout_ms delay;
                          payload := Call f a |} ] |};
     timeoutRef := Some (next_id (timers st));
     calls := calls st |}.
Proof.
  intros [Hq _]. unfold debouncedFunction.
  destruct Hq as [He|(t & Ht & Hr & Hpos)].
  - destruct (truthy (timeoutRef st)); [destruct (timeoutRef st)|];
      unfold setTimeout, clearTimeout; simpl; by rewrite He.
  - rewrite Hr. destruct (tid t) as [|k] eqn:Hk; [lia|]. simpl.
    unfold setTimeout, clearTimeout. simpl. rewrite Ht.
    rewrite filter_cons, filter_nil.
    destruct (decide (tid t ≠ S k)); [congruence|done].
Qed.

Lemma call_inv_step (st : state) (e : event) : inv st → inv (step st e).
Proof.
  intros Hi. destruct e as [f d a|dt]; simpl.
  - unfold useDebouncedFunction. rewrite call_arms by done.
    destruct Hi as [_ Hpos]. split; simpl; [|lia].
    right. eexists. split; [done|]. simpl. split; [done|lia].
  - unfold elapse.
    destruct (Timers.elapse dt (timers st)) as [fs h] eqn:E.
    apply elapse_sound in E as (Hn & Hid & Hp & Hf).
    rewrite calls_foldl. destruct Hi as [Hq Hpos]. split; simpl.
    + rewrite Hp.
      destruct Hq as [->|(t & -> & Hr & Hlt)]; [by left|].
      rewrite filter_cons, filter_nil.
      destruct (decide (now (timers st) + dt < due t)); [|by left].
      right. by exists t.
    + by rewrite Hid.
Qed.

Lemma call_inv_run (evs : list event) (st : state) :
  inv st → inv (run evs st).
Proof.
  revert st. induction evs as [|e evs IH]; intros st Hi; [done|].
  apply IH. by apply call_inv_step.
Qed.

Lemma call_elapse_waits (dt : nat) (st : state) :
  Forall (λ t, now (timers st) + dt < due t) (pending (timers st)) →
  elapse dt st =
  {| timers := {| now := now (timers st) + dt;
                  next_id := next_id (timers st);
                  pending := pending (timers st) |};
     timeoutRef := timeoutRef st; calls := calls st |}.
Proof. intros Hq. unfold elapse. by rewrite elapse_idle. Qed.

Lemma call_elapse_fires (dt : nat) (st : state) (t : timer call) :
  pending (timers st) = [t] →
  now (timers st) ≤ due t →
  due t ≤ now (timers st) + dt →
  elapse dt st =
  {| timers := {| now := now (timers st) + dt;
                  next_id := next_id (timers st);
                  pending := [] |};
     timeoutRef := timeoutRef st;
     calls := calls st ++ [fire_at (due t) t] |}.
Proof.
  intros Hp Hlo Hhi. unfold elapse. by rewrite (elapse_single dt _ t).
Qed.

Lemma call_run_cons (e : event) (evs : list event) (st : state) :
  run (e :: evs) st = run evs (step st e).
Proof. reflexivity. Qed.

(** After a burst whose gaps are all shorter than the delay, nothing has
    been invoked and exactly the last call's timer is queued. *)
Lemma burst_arms (f : fn_ref) (darg : option Z)
    (cs : list (list JsVal * nat)) (last : list JsVal) (st : state) :
  inv st →
  Forall (λ c, c.2 < timeout_ms (default default_delay darg)) cs →
  run (burst f darg cs last) st =
  {| timers :=
       {| now := now (timers st) + gaps cs;
          next_id := S (next_id (timers st) + length cs);
          pending :=
            [ {| tid := next_id (timers st) + length cs;
                 due := now (timers st) + gaps cs
                        + timeout_ms (default default_delay darg);
                 payload := Call f last |} ] |};
     timeoutRef := Some (next_id (timers st) + length cs);
     calls := calls st |}.
Proof.
  revert st. induction cs as [|[a g] cs IH]; intros st Hi Hg.
  - unfold burst. simpl. unfold useDebouncedFunction.
    rewrite call_arms by done. rewrite !Nat.add_0_r. done.
  - apply Forall_cons in Hg as [Hg Hgs]. simpl in Hg.
    change (burst f darg ((a, g) :: cs) last)
      with (Invoke f darg a :: Elapse g :: burst f darg cs last).
    rewrite !call_run_cons.
    pose proof (call_inv_step _ (Elapse g)
                  (call_inv_step st (Invoke f darg a) Hi)) as Hi2.
    rewrite IH by done. clear IH Hi2.
    simpl step. unfold useDebouncedFunction. rewrite call_arms by done.
    rewrite call_elapse_waits by (simpl; repeat constructor; simpl; lia).
    simpl.
    replace (now (timers st) + g + gaps cs)
      with (now (timers st) + (g + gaps cs)) by lia.
    by rewrite <- !Nat.add_succ_r.
Qed.

(** *** Calls through different closures, spaced calls, and counting *)

(** One call of some closure of the hook, and the time that passes after
    it. *)
Record timed_call : Type := TimedCall {
  tc_fn : fn_ref;
  tc_delay : option Z;
  tc_args : list JsVal;
  tc_gap : nat
}.

Definition timed_events (cs : list timed_call) : list event :=
  cs ≫= λ c, [Invoke (tc_fn c) (tc_delay c) (tc_args c); Elapse (tc_gap c)].

(** The invocations that calls of one closure make when each one's timer
    runs before the next call: one per call, [d] ms after it. *)
Fixpoint spaced_log (f : fn_ref) (d : nat) (start id : nat)
    (cs : list (list JsVal * nat)) : list (firing call) :=
  match cs with
  | [] => []
  | c :: cs' =>
      Firing (start + d) id (Call f c.1)
      :: spaced_log f d (start + c.2) (S id) cs'
  end.

Definition spaced_events (f : fn_ref) (delay_arg : option Z)
    (cs : list (list JsVal * nat)) : list event :=
  cs ≫= λ c, [Invoke f delay_arg c.1; Elapse c.2].

(** How often the debounced function is called in [evs]. *)
Fixpoint requests (evs : list event) : nat :=
  match evs with
  | [] => 0
  | Invoke _ _ _ :: evs' => S (requests evs')
  | Elapse _ :: evs' => requests evs'
  end.

Lemma call_run_app (evs1 evs2 : list event) (st : state) :
  run (evs1 ++ evs2) st = run evs2 (run evs1 st).
Proof. apply foldl_app. Qed.

(** Calls through any closures of the hook, each followed by less than its
    own delay, invoke nothing and leave at most the last call's timer. *)
Lemma mixed_calls_wait (cs : list timed_call) (st : state) :
  inv st →
  Forall (λ c, tc_gap c < timeout_ms (default default_delay (tc_delay c))) cs →
  calls (run (timed_events cs) st) = calls st ∧
  (cs = [] ∨ length (pending (timers (run (timed_events cs) st))) = 1).
Proof.
  revert st. induction cs as [|c cs IH]; intros st Hi Hg.
  - split; [done|by left].
  - apply Forall_cons in Hg as [Hg Hgs].
    change (timed_events (c :: cs))
      with (Invoke (tc_fn c) (tc_delay c) (tc_args c)
              :: Elapse (tc_gap c) :: timed_events cs).
    rewrite !call_run_cons.
    pose proof (call_inv_step _ (Elapse (tc_gap c))
                  (call_inv_step st
                     (Invoke (tc_fn c) (tc_delay c) (tc_args c)) Hi)) as Hi2.
    destruct (IH _ Hi2 Hgs) as [Hc Hp]. split.
    + rewrite Hc. simpl step. unfold useDebouncedFunction.
      rewrite call_arms by done.
      by rewrite call_elapse_waits
        by (simpl; repeat constructor; simpl; lia).
    + right. destruct Hp as [->|Hp]; [|done].
      simpl. unfold useDebouncedFunction. rewrite call_arms by done.
      by rewrite call_elapse_waits
        by (simpl; repeat constructor; simpl; lia).
Qed.

Lemma spaced_calls_all_run (f : fn_ref) (delay_arg : option Z)
    (cs : list (list JsVal * nat)) (st : state) :
  inv st →
  Forall (λ c, timeout_ms (default default_delay delay_arg) ≤ c.2) cs →
  cs ≠ [] →
  run (spaced_events f delay_arg cs) st =
  {| timers :=
       {| now := now (timers st) + gaps cs;
          next_id := next_id (timers st) + length cs;
          pending := [] |};
     timeoutRef := Some (Nat.pred (next_id (timers st) + length cs));
     calls := calls st ++
       spaced_log f (timeout_ms (default default_delay delay_arg))
         (now (timers st)) (next_id (timers st)) cs |}.
Proof.
  revert st. induction cs as [|[a g] cs IH]; intros st Hi Hg Hne; [done|].
  apply Forall_cons in Hg as [Hg Hgs]. simpl in Hg.
  change (spaced_events f delay_arg ((a, g) :: cs))
    with (Invoke f delay_arg a :: Elapse g :: spaced_events f delay_arg cs).
  rewrite !call_run_cons.
  pose proof (call_inv_step _ (Elapse g)
                (call_inv_step st (Invoke f delay_arg a) Hi)) as Hi2.
  assert (step (step st (Invoke f delay_arg a)) (Elapse g) =
          {| timers := {| now := now (timers st) + g;
                          next_id := S (next_id (timers st));
                          pending := [] |};
             timeoutRef := Some (next_id (timers st));
             calls := calls st ++
               [Firing (now (timers st)
                        + timeout_ms (default default_delay delay_arg))
                  (next_id (timers st)) (Call f a)] |}) as Hstep.
  { simpl step. unfold useDebouncedFunction. rewrite call_arms by done.
    by rewrite (call_elapse_fires g _
                  (Timer (next_id (timers st))
                     (now (timers st)
                      + timeout_ms (default default_delay delay_arg))
                     (Call f a))) by (done || (simpl; lia)). }
  rewrite Hstep in *.
  destruct cs as [|c cs].
  - simpl. rewrite !Nat.add_0_r.
    by replace (next_id (timers st) + 1) with (S (next_id (timers st))) by lia.
  - rewrite IH by done. simpl.
    rewrite <- app_assoc. simpl.
    replace (now (timers st) + g + (c.2 + gaps cs))
      with (now (timers st) + (g + (c.2 + gaps cs))) by lia.
    by rewrite !Nat.add_succ_r.
Qed.

Lemma requests_bound (evs : list event) (st : state) :
  length (calls (run evs st)) + length (pending (timers (run evs st)))
  ≤ length (calls st) + length (pending (timers st)) + requests evs.
Proof.
  revert st. induction evs as [|e evs IH]; intros st.
  - simpl. lia.
  - rewrite call_run_cons. etransitivity; [apply IH|].
    destruct e as [f d a|dt]; simpl.
    + assert (length (filter (λ t, tid t ≠ default 0 (timeoutRef st))
                        (pending (timers st)))
              ≤ length (pending (timers st))) as Hf by apply length_filter.
      unfold debouncedFunction.
      destruct (truthy (timeoutRef st)); [destruct (timeoutRef st)|];
        simpl in *; rewrite ?length_app; simpl; lia.
    + unfold elapse.
      destruct (Timers.elapse dt (timers st)) as [fs h] eqn:E.
      apply elapse_conserves in E. rewrite calls_foldl. simpl.
      rewrite length_app. lia.
Qed.

End DebouncedFunction.

(** ** useCustomFetcher (unnamed/part_000)

    Four [useState] cells.  The effect has dependencies [[url]] and calls
    [fetchData], which runs up to its first [await] at once and resumes when
    the environment delivers the outcome of the request.  Nothing is written
    between [await fetch(url)] and [await res.json()], so one outcome covers
    both: the request is rejected, or a response arrives with a status and a
    body that parses or does not. *)

Module Fetcher.

Inductive body : Type :=
| Parsed (json : JsVal)
| Malformed (message : string).

Inductive outcome : Type :=
| Rejected (message : string)
| Response (status : nat) (payload : body).

Record state : Type := State {
  isLoading : bool;
  data : JsVal;
  isError : bool;
  error : string;
  deps : option string;
  inflight : list (nat * string);
  started : nat
}.

Definition unmounted : state :=
  {| isLoading := false; data := JNull; isError := false; error := "";
     deps := None; inflight := []; started := 0 |}.

(** [res.ok]: the status is in the range 200-299. *)
Definition ok (status : nat) : bool := (200 <=? status) && (status <=? 299).

Definition decimal (n : nat) : string :=
  NilEmpty.string_of_uint (Nat.to_uint n).

Definition http_error (status : nat) : string :=
  String.append "HTTP error! status: " (decimal status).

Definition reset (st : state) : state :=
  {| isLoading := isLoading st; data := data st; isError := false;
     error := ""; deps := deps st; inflight := inflight st;
     started := started st |}.

Definition setIsLoading (b : bool) (st : state) : state :=
  {| isLoading := b; data := data st; isError := isError st;
     error := error st; deps := deps st; inflight := inflight st;
     started := started st |}.

Definition setData (d : JsVal) (st : state) : state :=
  {| isLoading := isLoading st; data := d; isError := isError st;
     error := error st; deps := deps st; inflight := inflight st;
     started := started st |}.

Definition setIsError (b : bool) (st : state) : state :=
  {| isLoading := isLoading st; data := data st; isError := b;
     error := error st; deps := deps st; inflight := inflight st;
     started := started st |}.

Definition setError (m : string) (st : state) : state :=
  {| isLoading := isLoading st; data := data st; isError := isError st;
     error := m; deps := deps st; inflight := inflight st;
     started := started st |}.

(** [fetchData] up to [await fetch(url)]. *)
Definition fetchData_begin (url : string) (st : state) : state :=
  let st1 := setIsLoading true (reset st) in
  {| isLoading := isLoading st1; data := data st1; isError := isError st1;
     error := error st1; deps := deps st1;
     inflight := inflight st1 ++ [(started st1, url)];
     started := S (started st1) |}.

(** The [try] block from the first [await] on: either it reaches its end
    with the parsed body, or something is thrown and [err.message] is what
    the [catch] block sees. *)
Definition try_block (o : outcome) : string + JsVal :=
  match o with
  | Rejected m => inl m
  | Response status b =>
      if negb (ok status) then inl (http_error status)
      else match b with
           | Malformed m => inl m
           | Parsed d => inr d
           end
  end.

(** [fetchData] from the first [await] to its end. *)
Definition fetchData_resume (o : outcome) (st : state) : state :=
  let st1 := match try_block o with
             | inr d => setData d st
             | inl m => setError m (setIsError true st)
             end in
  setIsLoading false st1.

(** One render of a component calling [useCustomFetcher(url)]. *)
Definition useCustomFetcher (url : string) (st : state) : state :=
  if bool_decide (deps st = Some url) then st
  else fetchData_begin url
         {| isLoading := isLoading st; data := data st;
            isError := isError st; error := error st; deps := Some url;
            inflight := inflight st; started := started st |}.

(** The request with number [id] settles. *)
Definition settle (id : nat) (o : outcome) (st : state) : state :=
  if bool_decide (id ∈ (inflight st).*1) then
    fetchData_resume o
      {| isLoading := isLoading st; data := data st;
         isError := isError st; error := error st; deps := deps st;
         inflight := filter (λ r, r.1 ≠ id) (inflight st);
         started := started st |}
  else st.

(** [fetchData] when nothing else happens between its beginning and the
    arrival of the outcome. *)
Definition fetchData (url : string) (o : outcome) (st : state) : state :=
  settle (started st) o (fetchData_begin url st).

Inductive event : Type :=
| Render (url : string)
| Settle (id : nat) (o : outcome).

Definition step (st : state) (e : event) : state :=
  match e with
  | Render url => useCustomFetcher url st
  | Settle id o => settle id o st
  end.

Definition run (evs : list event) (st : state) : state := foldl step st evs.

(** Requests overlap when the url changes while one is in flight; the
    cells are shared, so the failure of the older request is still showing
    after the newer one has succeeded. *)
Example overlapping_requests :
  let st := run [Render "/a"; Render "/b";
                 Settle 0 (Response 500 (Parsed JNull));
                 Settle 1 (Response 200 (Parsed (JNum 2)))] unmounted in
  data st = JNum 2 ∧ isError st = true ∧
  error st = "HTTP error! status: 500".
Proof. vm_compute. done. Qed.

(** *** Facts about the hook *)

Lemma ok_iff (status : nat) : ok status = true ↔ 200 ≤ status ≤ 299.
Proof.
  unfold ok. rewrite andb_true_iff, !Nat.leb_le. done.
Qed.

Lemma http_error_nonempty (status : nat) : http_error status ≠ "".
Proof. unfold http_error. simpl. discriminate. Qed.

Lemma settle_inflight (id : nat) (o : outcome) (st : state) :
  id ∈ (inflight st).*1 →
  settle id o st =
  fetchData_resume o
    {| isLoading := isLoading st; data := data st;
       isError := isError st; error := error st; deps := deps st;
       inflight := filter (λ r, r.1 ≠ id) (inflight st);
       started := started st |}.
Proof. intros Hin. unfold settle. by rewrite bool_decide_eq_true_2. Qed.

Lemma begin_inflight (url : string) (st : state) :
  started st ∈ (inflight (fetchData_begin url st)).*1.
Proof.
  simpl. rewrite fmap_app, elem_of_app. right. simpl.
  apply list_elem_of_singleton. done.
Qed.

Example not_found_after_success :
  let st := run [Render "/a"; Settle 0 (Response 200 (Parsed (JNum 1)));
                 Render "/b"; Settle 1 (Response 404 (Parsed JNull))]
                unmounted in
  data st = JNum 1 ∧ isError st = true ∧ isLoading st = false ∧
  error st = "HTTP error! status: 404".
Proof. vm_compute. done. Qed.

(** *** Counting fetches, and what reachable states look like *)

(** How many renders of [evs] pass a url other than the one of the render
    before ([prev] for the first). *)
Fixpoint url_changes (prev : option string) (evs : list event) : nat :=
  match evs with
  | [] => 0
  | Render url :: evs' =>
      (if bool_decide (prev = Some url) then 0 else 1)
      + url_changes (Some url) evs'
  | Settle _ _ :: evs' => url_changes prev evs'
  end.

Lemma fetcher_run_cons (e : event) (evs : list event) (st : state) :
  run (e :: evs) st = run evs (step st e).
Proof. reflexivity. Qed.

Lemma settle_keeps (id : nat) (o : outcome) (st : state) :
  deps (settle id o st) = deps st ∧ started (settle id o st) = started st.
Proof.
  unfold settle. case_bool_decide; [|done].
  unfold fetchData_resume. by destruct (try_block o).
Qed.

Lemma render_deps (url : string) (st : state) :
  deps (useCustomFetcher url st) = Some url.
Proof. unfold useCustomFetcher. by case_bool_decide. Qed.

(** In a state the hook can reach, a lowered error flag comes with an
    empty message, and a raised loading flag with a request in flight. *)
Definition tidy (st : state) : Prop :=
  (isError st = false → error st = "") ∧
  (isLoading st = true → inflight st ≠ []).

Lemma tidy_step (st : state) (e : event) : tidy st → tidy (step st e).
Proof.
  intros [He Hl]. destruct e as [url|id o]; simpl.
  - unfold useCustomFetcher. case_bool_decide; [done|].
    split; simpl; [done|]. intros _ Hnil.
    by apply app_eq_nil in Hnil as [_ ?].
  - unfold settle. case_bool_decide; [|done].
    unfold fetchData_resume. by destruct (try_block o).
Qed.

Lemma tidy_run (evs : list event) (st : state) :
  tidy st → tidy (run evs st).
Proof.
  revert st. induction evs as [|e evs IH]; intros st Ht; [done|].
  apply IH. by apply tidy_step.
Qed.

End Fetcher.

(** ** The form state controller (spec section 4.1)

    The module index exports [useForm] from useForm.jsx, which is not among
    the source files; the controller is therefore modelled from sections 3
    to 5 of the specification.

    Objects live in a heap of references, because the specification
    distinguishes a copy of [initialValues] from a reference to it: the
    caller's object sits at [initial_ref], [values] is a reference, and
    [handleChange] writes through it.  What [onSubmit] does is decided by
    the environment: its invocation is recorded in [submitted], a call it
    makes to [resetFields] is a [Reset] event, and its completion is a
    [Settle] event carrying the way it completed. *)

Module Form.

Record verdict : Type := Verdict {
  isValid : bool;
  errorMessage : string
}.

Abbreviation Validator := (string → verdict).

Inductive settlement : Type :=
| Fulfilled
| Failed (reason : string).

(** Modelled from the spec: the construction parameters of useForm
    (section 4.1, Construction); [initialValues] keeps the order in which the
    caller wrote the fields. *)
Record config : Type := Config {
  initialValues : list (string * string);
  validations : gmap string Validator
}.

(** Modelled from the spec: the FormState of useForm (section 3), with the
    heap that holds the objects and a record of the [onSubmit] calls made
    ([submitted]) and not yet completed ([unsettled]). *)
Record state : Type := State {
  heap : gmap nat (gmap string string);
  values : nat;
  errors : gmap string string;
  isSubmitting : bool;
  submitted : list (gmap string string);
  unsettled : nat
}.

Definition initial_ref : nat := 0.

Definition fields (cfg : config) : list string := (initialValues cfg).*1.

Definition object_of (kvs : list (string * string)) : gmap string string :=
  foldl (λ o kv, <[kv.1 := kv.2]> o) ∅ kvs.

Definition initial_obj (cfg : config) : gmap string string :=
  object_of (initialValues cfg).

(** Modelled from the spec: construction of useForm's state (section 3:
    values are initialised from [initialValues], errors are absent,
    [isSubmitting] is false).  The values object is a copy: section 4.1
    forbids edits from reaching the stored initial values. *)
Definition construct (cfg : config) : state :=
  {| heap := <[1 := initial_obj cfg]> {[ initial_ref := initial_obj cfg ]};
     values := 1;
     errors := ∅;
     isSubmitting := false;
     submitted := [];
     unsettled := 0 |}.

Definition current (st : state) : gmap string string :=
  default ∅ (heap st !! values st).

(** Modelled from the spec: useForm's handleChange (section 4.1): sets
    [values[fieldName]]; an unknown field name is a no-op, as the key set of
    [values] never changes (section 3, Invariants). *)
Definition handleChange (f v : string) (st : state) : state :=
  match heap st !! values st with
  | Some o =>
      if bool_decide (f ∈ dom o) then
        {| heap := <[values st := <[f := v]> o]> (heap st);
           values := values st; errors := errors st;
           isSubmitting := isSubmitting st; submitted := submitted st;
           unsettled := unsettled st |}
      else st
  | None => st
  end.

Definition with_errors (e : gmap string string) (st : state) : state :=
  {| heap := heap st; values := values st; errors := e;
     isSubmitting := isSubmitting st; submitted := submitted st;
     unsettled := unsettled st |}.

(** Modelled from the spec: one field's validation as useForm's handleBlur
    and handleSubmit run it (section 4.1): with a validator, an invalid value
    sets the field's error to the returned message and a valid one clears it;
    without a validator nothing happens.  The flag records whether every
    field so far passed. *)
Definition check (cfg : config) (vals : gmap string string)
    (acc : gmap string string * bool) (f : string)
  : gmap string string * bool :=
  match validations cfg !! f, vals !! f with
  | Some validator, Some x =>
      let r := validator x in
      if isValid r then (delete f acc.1, acc.2)
      else (<[f := errorMessage r]> acc.1, false)
  | _, _ => acc
  end.

(** Modelled from the spec: useForm's handleBlur (section 4.1). *)
Definition handleBlur (cfg : config) (f : string) (st : state) : state :=
  with_errors (check cfg (current st) (errors st, true) f).1 st.

(** Modelled from the spec: useForm's handleFocus (section 4.1): clears the
    field's error unconditionally. *)
Definition handleFocus (f : string) (st : state) : state :=
  with_errors (delete f (errors st)) st.

(** Modelled from the spec: the validation pass of useForm's handleSubmit
    (section 4.1): every field that has a validator, in the order of
    [initialValues]. *)
Definition validate (cfg : config) (st : state)
  : gmap string string * bool :=
  foldl (check cfg (current st)) (errors st, true) (fields cfg).

(** Modelled from the spec: useForm's handleSubmit up to the point where
    [onSubmit] has been invoked (section 4.1): a failed validation sets the
    errors and aborts; otherwise [isSubmitting] becomes true and [onSubmit]
    receives the current values. *)
Definition handleSubmit (cfg : config) (st : state) : state :=
  let '(errs, all_valid) := validate cfg st in
  if all_valid then
    {| heap := heap st; values := values st; errors := errs;
       isSubmitting := true;
       submitted := submitted st ++ [current st];
       unsettled := S (unsettled st) |}
  else with_errors errs st.

(** Modelled from the spec: the rest of useForm's handleSubmit, once
    [onSubmit] has completed (section 4.1): [isSubmitting] is released
    whether [onSubmit] succeeded or failed, and a failure is passed on to
    the caller as it is. *)
Definition handleSubmit_settle (r : settlement) (st : state)
  : state * settlement :=
  (match unsettled st with
   | 0 => st
   | S n =>
       {| heap := heap st; values := values st; errors := errors st;
          isSubmitting := false; submitted := submitted st;
          unsettled := n |}
   end, r).

(** Modelled from the spec: useForm's resetFields (section 4.1): [values]
    becomes a fresh copy of the stored initial values, [errors] is emptied,
    [isSubmitting] is not touched. *)
Definition resetFields (st : state) : state :=
  let l := fresh (dom (heap st)) in
  {| heap := <[l := default ∅ (heap st !! initial_ref)]> (heap st);
     values := l;
     errors := ∅;
     isSubmitting := isSubmitting st;
     submitted := submitted st;
     unsettled := unsettled st |}.

(** Modelled from the spec: what can happen to a useForm instance, the
    calls of its operations (section 4.1) and the completion of a pending
    [onSubmit]. *)
Inductive event : Type :=
| Change (f v : string)
| Blur (f : string)
| Focus (f : string)
| Reset
| Submit
| Settle (r : settlement).

Definition step (cfg : config) (st : state) (e : event) : state :=
  match e with
  | Change f v => handleChange f v st
  | Blur f => handleBlur cfg f st
  | Focus f => handleFocus f st
  | Reset => resetFields st
  | Submit => handleSubmit cfg st
  | Settle r => (handleSubmit_settle r st).1
  end.

Definition run (cfg : config) (evs : list event) (st : state) : state :=
  foldl (step cfg) st evs.

(** Modelled from the spec: the discipline sections 3 and 5 ask of the code
    that calls useForm's handlers: submissions do not overlap, so an attempt
    starts only when no [onSubmit] is pending, and only a pending one
    completes. *)
Fixpoint disciplined (cfg : config) (evs : list event) (st : state) : bool :=
  match evs with
  | [] => true
  | e :: evs' =>
      match e with
      | Submit => unsettled st =? 0
      | Settle _ => 0 <? unsettled st
      | _ => true
      end && disciplined cfg evs' (step cfg st e)
  end.

(** The example of the README and of section 8 of the specification, with
    "contains an at sign" standing in for the email pattern. *)
Definition signup : config :=
  {| initialValues := [("username", ""); ("email", "")];
     validations :=
       <["username" := λ v, {| isValid := 0 <? String.length v;
                                errorMessage := "Username is required" |}]>
       (<["email" := λ v, {| isValid := bool_decide (Ascii.ascii_of_nat 64 ∈ String.list_ascii_of_string v);
                             errorMessage := "Email is invalid" |}]> ∅) |}.

Example submit_empty_form :
  let st := handleSubmit signup (construct signup) in
  errors st !! "username" = Some "Username is required" ∧
  errors st !! "email" = Some "Email is invalid" ∧
  submitted st = [] ∧ isSubmitting st = false.
Proof. vm_compute. done. Qed.

Example submit_filled_form :
  let st := run signup [Change "username" "alice";
                        Change "email" "alice@x.com"; Submit]
              (construct signup) in
  isSubmitting st = true ∧ length (submitted st) = 1 ∧
  isSubmitting (step signup st (Settle (Failed "boom"))) = false.
Proof. vm_compute. done. Qed.

(** *** Facts about the controller *)

Lemma dom_object_of (kvs : list (string * string)) :
  dom (object_of kvs) = list_to_set kvs.*1.
Proof.
  unfold object_of.
  assert (∀ o : gmap string string,
            dom (foldl (λ o kv, <[kv.1 := kv.2]> o) o kvs)
            = dom o ∪ list_to_set kvs.*1) as Hgen.
  { induction kvs as [|kv kvs IH]; intros o; simpl.
    - set_solver.
    - rewrite IH, dom_insert_L. set_solver. }
  rewrite Hgen, dom_empty_L. set_solver.
Qed.

(** The stored initial values are intact, [values] refers to another
    object, and that object has the fields of [initialValues]. *)
Record wf (cfg : config) (st : state) : Prop := Wf {
  wf_initial : heap st !! initial_ref = Some (initial_obj cfg);
  wf_ref : values st ≠ initial_ref;
  wf_values : ∃ o, heap st !! values st = Some o ∧ dom o = dom (initial_obj cfg)
}.

Lemma wf_construct (cfg : config) : wf cfg (construct cfg).
Proof.
  split; simpl.
  - rewrite lookup_insert_ne by done. apply lookup_singleton_eq.
  - done.
  - exists (initial_obj cfg). split; [apply lookup_insert_eq|done].
Qed.

Lemma wf_resetFields (cfg : config) (st : state) :
  wf cfg st → wf cfg (resetFields st).
Proof.
  intros [Hi Hr (o & Ho & Hd)].
  assert (fresh (dom (heap st)) ≠ initial_ref) as Hne.
  { intros Heq. apply (is_fresh (dom (heap st))). rewrite Heq.
    apply elem_of_dom. by eexists. }
  split; simpl.
  - by rewrite lookup_insert_ne.
  - done.
  - exists (initial_obj cfg). rewrite Hi. simpl.
    split; [apply lookup_insert_eq|done].
Qed.

Lemma wf_handleChange (cfg : config) (f v : string) (st : state) :
  wf cfg st → wf cfg (handleChange f v st).
Proof.
  intros Hw. pose proof Hw as [Hi Hr (o & Ho & Hd)]. unfold handleChange.
  rewrite Ho. case_bool_decide as Hin; [|done]. split; simpl.
  - by rewrite lookup_insert_ne.
  - done.
  - exists (<[f := v]> o). split; [apply lookup_insert_eq|].
    rewrite dom_insert_L, <- Hd. set_solver.
Qed.

Lemma wf_step (cfg : config) (st : state) (e : event) :
  wf cfg st → wf cfg (step cfg st e).
Proof.
  intros Hw. destruct e as [f v|f|f| | |r]; simpl.
  - by apply wf_handleChange.
  - by destruct Hw.
  - by destruct Hw.
  - by apply wf_resetFields.
  - unfold handleSubmit. destruct (validate cfg st) as [errs [|]];
      by destruct Hw.
  - destruct (unsettled st); by destruct Hw.
Qed.

Lemma wf_run (cfg : config) (evs : list event) (st : state) :
  wf cfg st → wf cfg (run cfg evs st).
Proof.
  revert st. induction evs as [|e evs IH]; intros st Hw; [done|].
  apply IH. by apply wf_step.
Qed.

Lemma check_other (cfg : config) (vals : gmap string string)
    (acc : gmap string string * bool) (f g : string) :
  f ≠ g → (check cfg vals acc g).1 !! f = acc.1 !! f.
Proof.
  intros Hne. unfold check.
  destruct (validations cfg !! g); [|done].
  destruct (vals !! g); [|done].
  destruct (isValid _); simpl.
  - by rewrite lookup_delete_ne.
  - by rewrite lookup_insert_ne.
Qed.

Lemma check_failed (cfg : config) (vals : gmap string string)
    (acc : gmap string string * bool) (g : string) :
  acc.2 = false → (check cfg vals acc g).2 = false.
Proof.
  intros Hf. unfold check.
  destruct (validations cfg !! g); [|done].
  destruct (vals !! g); [|done].
  by destruct (isValid _).
Qed.

(** A field of the pass whose value its validator rejects ends up with the
    validator's message, and the pass fails. *)
Lemma validation_pass_rejects (cfg : config) (vals : gmap string string)
    (fs : list string) (acc : gmap string string * bool)
    (f x : string) (validator : Validator) :
  f ∈ fs →
  validations cfg !! f = Some validator →
  vals !! f = Some x →
  isValid (validator x) = false →
  (foldl (check cfg vals) acc fs).1 !! f = Some (errorMessage (validator x)) ∧
  (foldl (check cfg vals) acc fs).2 = false.
Proof.
  intros Hin Hv Hx Hbad. revert Hin.
  induction fs as [|g fs IH] using rev_ind; intros Hin.
  - by apply elem_of_nil in Hin.
  - rewrite foldl_app. cbn [foldl].
    destruct (decide (g = f)) as [Heq|Hne].
    + rewrite Heq. unfold check. rewrite Hv, Hx, Hbad. simpl.
      split; [apply lookup_insert_eq|done].
    + apply elem_of_app in Hin as [Hin|Hin].
      * destruct (IH Hin) as [H1 H2]. split.
        -- by rewrite check_other by congruence.
        -- by apply check_failed.
      * apply list_elem_of_singleton in Hin. congruence.
Qed.

(** Under the caller's discipline the flag is up exactly while an
    [onSubmit] is pending, and at most one is. *)
Lemma flag_tracks_pending (cfg : config) (evs : list event) (st : state) :
  isSubmitting st = (0 <? unsettled st) →
  unsettled st ≤ 1 →
  disciplined cfg evs st = true →
  isSubmitting (run cfg evs st) = (0 <? unsettled (run cfg evs st)) ∧
  unsettled (run cfg evs st) ≤ 1.
Proof.
  revert st. induction evs as [|e evs IH]; intros st Hf Hle Hd; [done|].
  simpl in Hd. apply andb_true_iff in Hd as [He Hd].
  unfold run. simpl. apply IH; [| |done]; clear IH Hd.
  - destruct e as [f v|f|f| | |r]; simpl; try done.
    + unfold handleChange. destruct (heap st !! values st); [|done].
      by case_bool_decide.
    + unfold handleSubmit. by destruct (validate cfg st) as [errs [|]].
    + destruct (unsettled st) as [|n] eqn:Hn; [done|]. simpl.
      assert (n = 0) as -> by lia. done.
  - destruct e as [f v|f|f| | |r]; simpl; try done.
    + unfold handleChange. destruct (heap st !! values st); [|done].
      by case_bool_decide.
    + unfold handleSubmit. apply Nat.eqb_eq in He.
      destruct (validate cfg st) as [errs [|]]; simpl; lia.
    + destruct (unsettled st) as [|n] eqn:Hn; simpl; lia.
Qed.

End Form.

(** * The claims of the specification *)

Section DebouncedValueClaims.
Import Timers DebouncedValue.

(** C6: for every sequence of inputs to the debounced-value hook and every
    delay the host's timers grant as it is, a new input [v] replaces
    whatever update was pending by its own; as long as less than [delay] ms
    have passed without a newer input, [debouncedValue] is not updated;
    once [delay] ms have passed without a newer input it is [v], set at
    exactly [delay] ms after the input; and if a newer input arrives before
    that, the update to [v] is cancelled and its timer never runs, whatever
    happens afterwards. *)
Theorem debounced_value_waits_for_quiet_delay
    (history quiet : list event) (v : JsVal) (delay_arg : option Z) :
  let st := run history unmounted in
  let d := Z.to_nat (default default_delay delay_arg) in
  let st1 := useDebouncedValue v delay_arg st in
  honoured (default default_delay delay_arg) →
  deps_changed (deps st) v (default default_delay delay_arg) = true →
  Forall (same_input v delay_arg) quiet →
  pending (timers st1)
    = [Timer (next_id (timers st)) (now (timers st) + d) v] ∧
  (elapsed quiet < d →
     debouncedValue (run quiet st1) = debouncedValue st ∧
     emitted (run quiet st1) = emitted st) ∧
  (∀ dt, d ≤ elapsed quiet + dt →
     debouncedValue (elapse dt (run quiet st1)) = v ∧
     emitted (elapse dt (run quiet st1))
       = emitted st ++ [Firing (now (timers st) + d) (next_id (timers st)) v]) ∧
  (elapsed quiet < d →
     ∀ (v' : JsVal) (delay_arg' : option Z) (future : list event),
       deps_changed (Some (v, default default_delay delay_arg)) v'
         (default default_delay delay_arg') = true →
       next_id (timers st) ∉
         (fired_tid <$>
            emitted (run future
                       (useDebouncedValue v' delay_arg' (run quiet st1))))).
Proof.
  intros st d st1 Hh Hnew Hq.
  assert (inv st) as Hi by apply inv_run, inv_unmounted.
  pose proof (render_arms v delay_arg st Hi Hnew) as Hst1.
  rewrite (timeout_ms_honoured _ Hh) in Hst1.
  fold st1 in Hst1. fold d in Hst1.
  set (t := Timer (next_id (timers st)) (now (timers st) + d) v) in *.
  assert (pending (timers st1) = [t]) as Hp1 by by rewrite Hst1.
  assert (deps st1 = Some (v, default default_delay delay_arg)) as Hd1
    by by rewrite Hst1.
  assert (now (timers st1) = now (timers st)) as Hn1 by by rewrite Hst1.
  assert (emitted st1 = emitted st) as He1 by by rewrite Hst1.
  assert (debouncedValue st1 = debouncedValue st) as Hv1 by by rewrite Hst1.
  assert (inv (run quiet st1)) as Hi2.
  { apply inv_run. apply (inv_step st (Render v delay_arg) Hi). }
  destruct (quiet_cases v delay_arg quiet st1 t Hd1 Hp1) as [[Hle Hr]|[Hle Hr]];
    [rewrite Hn1; simpl; lia|done|..]; rewrite Hn1 in Hle; simpl in Hle.
  - (* the timer is still waiting after [quiet] *)
    split; [done|]. split; [by rewrite Hr|]. split.
    + intros dt Hdt. rewrite Hr.
      rewrite (elapse_fires dt _ t); simpl; [|done|lia|lia].
      by rewrite He1.
    + intros Hlt v' delay_arg' future Hnew'.
      apply (cancelled_run (next_id (timers st)) future). 
      rewrite render_arms; [|done|by rewrite Hr; simpl; rewrite Hd1].
      rewrite Hr. unfold cancelled. simpl.
      rewrite Hst1. simpl. split; [lia|]. split.
      * intros Hin. apply list_elem_of_singleton in Hin. lia.
      * intros Hin. apply list_elem_of_fmap in Hin as (f & Hf & Hin).
        destruct Hi as [_ He]. eapply Forall_forall in He; [|exact Hin]. lia.
  - (* the timer has run during [quiet] *)
    split; [done|]. split; [lia|]. split; [|lia].
    intros dt _. rewrite Hr.
    rewrite elapse_waits by (simpl; constructor).
    simpl. by rewrite He1.
Qed.

Lemma debounced_value_waits_for_quiet_delay_witness :
  let st1 := useDebouncedValue (JStr "a") None (run [] unmounted) in
  debouncedValue (run [Elapse 100] st1) = JUndefined ∧
  debouncedValue (elapse 400 (run [Elapse 100] st1)) = JStr "a" ∧
  1 ∉ (fired_tid <$>
         emitted (run [Elapse 1000]
                    (useDebouncedValue (JStr "ab") None
                       (run [Elapse 100] st1)))).
Proof.
  destruct (debounced_value_waits_for_quiet_delay
              [] [Elapse 100] (JStr "a") None)
    as (_ & Hbefore & Hafter & Hcancel).
  - vm_compute. split; discriminate.
  - reflexivity.
  - repeat constructor.
  - split; [|split].
    + apply Hbefore. vm_compute. lia.
    + apply (Hafter 400). vm_compute. lia.
    + apply (Hcancel ltac:(vm_compute; lia) (JStr "ab") None [Elapse 1000]).
      reflexivity.
Defined.

(** C9: for every initial input, [debouncedValue] is [undefined] when the
    hook is constructed and right after the first render, and, for every
    delay the host's timers grant as it is, stays [undefined] for as long
    as less than the first delay has passed (renders in between may change
    the value, and may change the delay as long as the delay the host
    grants them is not shorter). *)
Theorem debounced_value_starts_undefined
    (v : JsVal) (delay_arg : option Z) (evs : list event) :
  let d := Z.to_nat (default default_delay delay_arg) in
  debouncedValue unmounted = JUndefined ∧
  debouncedValue (useDebouncedValue v delay_arg unmounted) = JUndefined ∧
  (honoured (default default_delay delay_arg) →
   Forall (no_sooner d) evs →
   elapsed evs < d →
   debouncedValue (run (Render v delay_arg :: evs) unmounted) = JUndefined).
Proof.
  intros d. split; [done|]. split; [done|].
  intros Hh Hs Ht. rewrite run_cons.
  apply (stays_undefined d); [done| |done|done].
  simpl. repeat constructor. simpl.
  rewrite (timeout_ms_honoured _ Hh). fold d. lia.
Qed.

Lemma debounced_value_starts_undefined_witness :
  debouncedValue
    (run [Render (JStr "a") None; Elapse 200;
          Render (JStr "ab") None; Elapse 299] unmounted) = JUndefined.
Proof.
  apply (debounced_value_starts_undefined (JStr "a") None
           [Elapse 200; Render (JStr "ab") None; Elapse 299]).
  - vm_compute. split; discriminate.
  - repeat constructor.
  - vm_compute. lia.
Defined.

End DebouncedValueClaims.

Section DebouncedFunctionClaims.
Import Timers DebouncedFunction.

(** C7: for every sequence of calls to the debounced function and every
    delay the host's timers grant as it is, a call leaves exactly its own
    timer queued, so a timer pending from an earlier call is cancelled; for
    a burst of calls of the same closure whose gaps are all shorter than
    [delay] ms, the wrapped function is not invoked before [delay] ms after
    the last call, and from then on it has been invoked exactly once for
    the whole burst, with the last call's arguments, at [delay] ms after the
    last call. *)
Theorem debounced_function_runs_last_call_of_burst
    (history : list event) (f : fn_ref) (delay_arg : option Z)
    (cs : list (list JsVal * nat)) (last : list JsVal) :
  let st := run history mounted in
  let d := Z.to_nat (default default_delay delay_arg) in
  let st' := run (burst f delay_arg cs last) st in
  honoured (default default_delay delay_arg) →
  Forall (λ c, c.2 < d) cs →
  now (timers st') = now (timers st) + gaps cs ∧
  pending (timers st')
    = [Timer (next_id (timers st) + length cs) (now (timers st') + d)
         (Call f last)] ∧
  (∀ dt, dt < d → calls (elapse dt st') = calls st) ∧
  (∀ dt, d ≤ dt →
     calls (elapse dt st')
       = calls st ++ [Firing (now (timers st') + d)
                        (next_id (timers st) + length cs) (Call f last)]).
Proof.
  intros st d st' Hh Hg.
  assert (inv st) as Hi by apply call_inv_run, inv_mounted.
  pose proof (burst_arms f delay_arg cs last st Hi) as Hst'.
  rewrite (timeout_ms_honoured _ Hh) in Hst'.
  specialize (Hst' Hg). fold st' in Hst'. fold d in Hst'.
  rewrite Hst'. simpl. split; [done|]. split; [done|]. split.
  - intros dt Hdt.
    rewrite call_elapse_waits; [done|].
    simpl. repeat constructor. simpl. lia.
  - intros dt Hdt.
    erewrite call_elapse_fires; [|simpl; reflexivity|simpl; lia|simpl; lia].
    done.
Qed.

Lemma debounced_function_runs_last_call_of_burst_witness :
  let st' := run (burst 7 None
                    [([JStr "r"], 120); ([JStr "re"], 499)] [JStr "rea"])
               (run [] mounted) in
  calls (elapse 499 st') = [] ∧
  calls (elapse 500 st')
    = [Firing 1119 3 (Call 7 [JStr "rea"])].
Proof.
  destruct (debounced_function_runs_last_call_of_burst
              [] 7 None
              [([JStr "r"], 120); ([JStr "re"], 499)] [JStr "rea"])
    as (_ & _ & Hbefore & Hafter).
  - vm_compute. split; discriminate.
  - repeat constructor; vm_compute; lia.
  - split.
    + apply (Hbefore 499). vm_compute. lia.
    + apply (Hafter 500). vm_compute. lia.
Defined.

End DebouncedFunctionClaims.

(** C8: with the delay argument omitted, both debounce hooks do on every
    sequence of events exactly what they do with 500 passed for it. *)
Theorem omitted_delay_is_500 :
  (∀ (evs : list DebouncedValue.event) (st : DebouncedValue.state),
     DebouncedValue.run evs st
     = DebouncedValue.run (DebouncedValue.explicit_delay <$> evs) st) ∧
  (∀ (evs : list DebouncedFunction.event) (st : DebouncedFunction.state),
     DebouncedFunction.run evs st
     = DebouncedFunction.run (DebouncedFunction.explicit_delay <$> evs) st).
Proof.
  split.
  - induction evs as [|e evs IH]; intros st; [done|].
    rewrite fmap_cons, !DebouncedValue.run_cons, <- IH.
    by destruct e as [v [d|]|dt].
  - induction evs as [|e evs IH]; intros st; [done|].
    rewrite fmap_cons, !DebouncedFunction.call_run_cons, <- IH.
    by destruct e as [f [d|] a|dt].
Qed.

Section FetcherClaims.
Import Fetcher.

(** C4: for every fetch of the Fetcher hook, when the response's status is
    outside 200-299 the fetch ends with [isError = true], with the
    non-empty message that names the status, and with [data] as it was;
    when the status is inside 200-299 and the body parses, [data] is the
    parsed body and [isError] is false.  The same holds for the resumption
    alone, in whatever state the response arrives: it then leaves
    [isError] and [error] as it finds them. *)
Theorem fetcher_status_decides_result
    (st st2 : state) (url : string) (id status : nat) (b : body) :
  let done := fetchData url (Response status b) st in
  let late := settle id (Response status b) st2 in
  (¬ (200 ≤ status ≤ 299) →
     isError done = true ∧ error done = http_error status ∧
     error done ≠ "" ∧ data done = data st) ∧
  (200 ≤ status ≤ 299 → ∀ d, b = Parsed d →
     data done = d ∧ isError done = false ∧ error done = "") ∧
  (id ∈ (inflight st2).*1 → ¬ (200 ≤ status ≤ 299) →
     isError late = true ∧ error late = http_error status ∧
     error late ≠ "" ∧ data late = data st2) ∧
  (id ∈ (inflight st2).*1 → 200 ≤ status ≤ 299 → ∀ d, b = Parsed d →
     data late = d ∧ isError late = isError st2 ∧ error late = error st2).
Proof.
  intros done late. subst done late. unfold fetchData.
  rewrite (settle_inflight (started st)) by apply begin_inflight.
  unfold fetchData_resume, try_block.
  destruct (ok status) eqn:Hok.
  - apply ok_iff in Hok. split; [tauto|]. split.
    + intros _ d ->. done.
    + split; [tauto|]. intros Hin _ d ->.
      rewrite settle_inflight by done.
      unfold fetchData_resume, try_block.
      apply ok_iff in Hok. by rewrite Hok.
  - assert (¬ (200 ≤ status ≤ 299)) as Hno.
    { intros H. apply ok_iff in H. congruence. }
    simpl. split.
    + intros _. repeat split; done || apply http_error_nonempty.
    + split; [tauto|]. split; [|tauto].
      intros Hin _. rewrite settle_inflight by done.
      unfold fetchData_resume, try_block. rewrite Hok. simpl.
      repeat split; done || apply http_error_nonempty.
Qed.

Lemma fetcher_status_decides_result_witness :
  let st := useCustomFetcher "/a" unmounted in
  error (settle 0 (Response 404 (Parsed JNull)) st)
    = "HTTP error! status: 404" ∧
  data (settle 0 (Response 404 (Parsed JNull)) st) = JNull ∧
  data (settle 0 (Response 204 (Parsed (JStr "x"))) st) = JStr "x" ∧
  isError (settle 0 (Response 204 (Parsed (JStr "x"))) st) = false.
Proof.
  pose proof (fetcher_status_decides_result
                unmounted (useCustomFetcher "/a" unmounted) "/a" 0 404
                (Parsed JNull)) as (_ & _ & Hbad & _).
  pose proof (fetcher_status_decides_result
                unmounted (useCustomFetcher "/a" unmounted) "/a" 0 204
                (Parsed (JStr "x"))) as (_ & _ & _ & Hgood).
  destruct Hbad as (_ & He & _ & Hd); [by vm_compute; left|lia|].
  destruct (Hgood ltac:(by vm_compute; left) ltac:(lia) (JStr "x") eq_refl)
    as (Hd' & He' & _).
  split; [exact He|]. split; [exact Hd|]. split; [exact Hd'|exact He'].
Defined.

(** C5: a render of the Fetcher hook starts a fetch exactly when the url
    differs from the one of the previous render, the first render included,
    and nothing else starts one; a fetch begins with [isError = false],
    [error = ""] and [isLoading = true]; and whenever a fetch settles,
    however it does, [isLoading] is false afterwards. *)
Theorem fetcher_fetches_when_url_changes
    (st st2 : state) (url : string) (id : nat) (o : outcome) :
  let st1 := useCustomFetcher url st in
  (deps st = Some url → st1 = st) ∧
  (deps st ≠ Some url →
     started st1 = S (started st) ∧
     inflight st1 = inflight st ++ [(started st, url)] ∧
     deps st1 = Some url ∧
     isError st1 = false ∧ error st1 = "" ∧ isLoading st1 = true ∧
     isLoading (settle (started st) o st1) = false) ∧
  started (useCustomFetcher url unmounted) = 1 ∧
  started (settle id o st2) = started st2 ∧
  (id ∈ (inflight st2).*1 → isLoading (settle id o st2) = false).
Proof.
  intros st1. subst st1. unfold useCustomFetcher. split; [|split].
  - intros Hd. by rewrite bool_decide_eq_true_2.
  - intros Hd. rewrite bool_decide_eq_false_2 by done.
    repeat split; try done.
    rewrite settle_inflight; [done|].
    simpl. rewrite fmap_app, elem_of_app. right.
    by apply list_elem_of_singleton.
  - split; [done|]. split.
    + unfold settle. case_bool_decide; [|done].
      unfold fetchData_resume. by destruct (try_block o).
    + intros Hin. by rewrite settle_inflight.
Qed.

Lemma fetcher_fetches_when_url_changes_witness :
  let st := useCustomFetcher "/a" unmounted in
  useCustomFetcher "/a" st = st ∧
  started (useCustomFetcher "/b" st) = 2 ∧
  isLoading (useCustomFetcher "/b" st) = true ∧
  isLoading (settle 1 (Rejected "Failed to fetch")
               (useCustomFetcher "/b" st)) = false.
Proof.
  pose proof (fetcher_fetches_when_url_changes
                (useCustomFetcher "/a" unmounted)
                (useCustomFetcher "/b" (useCustomFetcher "/a" unmounted))
                "/a" 1 (Rejected "Failed to fetch")) as (Hsame & _ & _ & _ & Hl).
  pose proof (fetcher_fetches_when_url_changes
                (useCustomFetcher "/a" unmounted) unmounted
                "/b" 0 (Rejected "Failed to fetch")) as (_ & Hnew & _).
  destruct Hnew as (Hs & _ & _ & _ & _ & Hload & _); [by vm_compute|].
  split; [apply Hsame; reflexivity|]. split; [exact Hs|].
  split; [exact Hload|]. apply Hl. vm_compute. do 2 constructor.
Defined.

(** C10: a failed fetch leaves [data] unchanged.  Beginning a fetch does
    not touch [data]; a fetch that settles with a failure of any kind
    leaves [data] as it was and raises [isError]; [data] changes only when
    a response with a status in 200-299 and a body that parses arrives; so
    after a successful fetch followed by a failed one, [data] still holds
    the earlier response while [isError] is true. *)
Theorem fetcher_failure_keeps_data
    (st : state) (url url' : string) (id : nat) (o : outcome)
    (m : string) (d : JsVal) (e : event) :
  data (fetchData_begin url st) = data st ∧
  (id ∈ (inflight st).*1 → try_block o = inl m →
     data (settle id o st) = data st ∧ isError (settle id o st) = true ∧
     error (settle id o st) = m) ∧
  (data (step st e) ≠ data st →
     ∃ id' status d', e = Settle id' (Response status (Parsed d')) ∧
                      200 ≤ status ≤ 299 ∧ data (step st e) = d') ∧
  (url ≠ url' → try_block o = inl m →
     let final := run [Render url; Settle 0 (Response 200 (Parsed d));
                       Render url'; Settle 1 o] unmounted in
     data final = d ∧ isError final = true ∧ error final = m).
Proof.
  split; [done|]. split; [|split].
  - intros Hin Ht. rewrite settle_inflight by done.
    unfold fetchData_resume. by rewrite Ht.
  - destruct e as [u|id' o']; simpl.
    + unfold useCustomFetcher. by case_bool_decide.
    + unfold settle. case_bool_decide; [|done].
      unfold fetchData_resume, try_block.
      destruct o' as [m'|status [d'|m']]; simpl; try done.
      * destruct (ok status) eqn:Hok; simpl; [|done].
        intros _. exists id', status, d'. by apply ok_iff in Hok.
      * by destruct (ok status).
  - intros Hne Ht final. subst final.
    change (run [Render url; Settle 0 (Response 200 (Parsed d));
                 Render url'; Settle 1 o] unmounted)
      with (settle 1 o
              (useCustomFetcher url'
                 {| isLoading := false; data := d; isError := false;
                    error := ""; deps := Some url; inflight := [];
                    started := 1 |})).
    unfold useCustomFetcher. simpl deps.
    rewrite bool_decide_eq_false_2 by congruence.
    rewrite settle_inflight by (simpl; by left).
    unfold fetchData_resume. by rewrite Ht.
Qed.

Lemma fetcher_failure_keeps_data_witness :
  let final := run [Render "/a"; Settle 0 (Response 200 (Parsed (JNum 1)));
                    Render "/b"; Settle 1 (Response 500 (Malformed "x"))]
                 unmounted in
  data final = JNum 1 ∧ isError final = true ∧
  error final = "HTTP error! status: 500".
Proof.
  pose proof (fetcher_failure_keeps_data unmounted "/a" "/b" 0
                (Response 500 (Malformed "x")) "HTTP error! status: 500"
                (JNum 1) (Render "/a")) as (_ & _ & _ & H).
  apply H; [discriminate|reflexivity].
Defined.

End FetcherClaims.

Section FormClaims.
Import Form.

(** C1: after any sequence of events, for every field that has a validator
    and whose current value the validator rejects, [handleSubmit] does not
    invoke [onSubmit], leaves [isSubmitting] as it is, and sets the field's
    error to the message the validator returns. *)
Theorem form_invalid_submit_is_blocked
    (cfg : config) (evs : list event) (f x : string) (validator : Validator) :
  let st := run cfg evs (construct cfg) in
  let st' := handleSubmit cfg st in
  validations cfg !! f = Some validator →
  current st !! f = Some x →
  isValid (validator x) = false →
  submitted st' = submitted st ∧
  unsettled st' = unsettled st ∧
  isSubmitting st' = isSubmitting st ∧
  errors st' !! f = Some (errorMessage (validator x)).
Proof.
  intros st st' Hv Hx Hbad. subst st'.
  assert (wf cfg st) as [_ _ (o & Ho & Hd)] by apply wf_run, wf_construct.
  assert (f ∈ fields cfg) as Hin.
  { unfold current in Hx. rewrite Ho in Hx. simpl in Hx.
    assert (f ∈ dom o) as Hf by (apply elem_of_dom; by eexists).
    rewrite Hd in Hf. unfold initial_obj in Hf.
    rewrite dom_object_of in Hf. by apply elem_of_list_to_set in Hf. }
  destruct (validation_pass_rejects cfg (current st) (fields cfg)
              (errors st, true) f x validator Hin Hv Hx Hbad) as [He Hf].
  unfold handleSubmit. fold (validate cfg st) in He, Hf.
  destruct (validate cfg st) as [errs all_valid]. simpl in He, Hf.
  by rewrite Hf.
Qed.

Lemma form_invalid_submit_is_blocked_witness :
  let st := run signup [Change "username" "alice"; Change "email" "alice"]
              (construct signup) in
  submitted (handleSubmit signup st) = [] ∧
  isSubmitting (handleSubmit signup st) = false ∧
  errors (handleSubmit signup st) !! "email" = Some "Email is invalid".
Proof.
  destruct (form_invalid_submit_is_blocked signup
              [Change "username" "alice"; Change "email" "alice"]
              "email" "alice"
              (λ v, {| isValid := bool_decide
                         (Ascii.ascii_of_nat 64 ∈ String.list_ascii_of_string v);
                       errorMessage := "Email is invalid" |}))
    as (Hs & _ & Hf & He); [reflexivity|reflexivity|reflexivity|].
  split; [exact Hs|]. split; [exact Hf|exact He].
Defined.

(** C2: as long as submit attempts do not overlap, [isSubmitting] is false
    whenever no [onSubmit] is pending, so before [handleSubmit] starts and
    again after [onSubmit] has settled, and true whenever one is pending;
    settling releases the flag whether [onSubmit] was fulfilled or failed,
    and passes the failure on unchanged. *)
Theorem form_isSubmitting_brackets_onSubmit
    (cfg : config) (evs : list event) (r : settlement) :
  let st := run cfg evs (construct cfg) in
  disciplined cfg evs (construct cfg) = true →
  (unsettled st = 0 → isSubmitting st = false) ∧
  (unsettled st = 0 → (validate cfg st).2 = true →
     isSubmitting (handleSubmit cfg st) = true ∧
     unsettled (handleSubmit cfg st) = 1) ∧
  (0 < unsettled st →
     isSubmitting st = true ∧
     isSubmitting (handleSubmit_settle r st).1 = false ∧
     unsettled (handleSubmit_settle r st).1 = 0 ∧
     (handleSubmit_settle r st).2 = r).
Proof.
  intros st Hd.
  destruct (flag_tracks_pending cfg evs (construct cfg)) as [Hf Hle];
    [done|simpl; lia|done|]. fold st in Hf, Hle.
  split; [|split].
  - intros H0. by rewrite Hf, H0.
  - intros H0 Hok. unfold handleSubmit.
    destruct (validate cfg st) as [errs all_valid]. simpl in Hok.
    rewrite Hok. simpl. by rewrite H0.
  - intros Hpos. split.
    + rewrite Hf. by apply Nat.ltb_lt.
    + unfold handleSubmit_settle.
      destruct (unsettled st) as [|n]; [lia|]. simpl.
      repeat split. lia.
Qed.

Lemma form_isSubmitting_brackets_onSubmit_witness :
  let st := run signup [Change "username" "alice";
                        Change "email" "alice@x.com"; Submit; Reset]
              (construct signup) in
  isSubmitting (construct signup) = false ∧
  isSubmitting st = true ∧
  isSubmitting (handleSubmit_settle (Failed "boom") st).1 = false.
Proof.
  destruct (form_isSubmitting_brackets_onSubmit signup [] (Failed "boom"))
    as (Hidle & _); [reflexivity|].
  destruct (form_isSubmitting_brackets_onSubmit signup
              [Change "username" "alice"; Change "email" "alice@x.com";
               Submit; Reset] (Failed "boom"))
    as (_ & _ & Hbusy); [reflexivity|].
  destruct Hbusy as (Hup & Hdown & _); [vm_compute; lia|].
  split; [apply Hidle; reflexivity|]. split; [exact Hup|exact Hdown].
Defined.

(** C3: after any sequence of events, [resetFields] makes [values] refer
    to an object other than the stored initial values whose content equals
    them, empties [errors] and leaves [isSubmitting] as it is; and whatever
    happens afterwards, the stored initial values keep their original
    content. *)
Theorem form_reset_restores_initial_values
    (cfg : config) (evs later : list event) :
  let st := run cfg evs (construct cfg) in
  let st' := resetFields st in
  heap st' !! values st' = Some (initial_obj cfg) ∧
  current st' = initial_obj cfg ∧
  values st' ≠ initial_ref ∧
  errors st' = ∅ ∧
  isSubmitting st' = isSubmitting st ∧
  heap (run cfg later st') !! initial_ref = Some (initial_obj cfg).
Proof.
  intros st st'.
  assert (wf cfg st) as Hw by apply wf_run, wf_construct.
  assert (wf cfg st') as Hw' by by apply wf_resetFields.
  assert (heap st' !! values st' = Some (initial_obj cfg)) as Hv.
  { subst st'. simpl. rewrite lookup_insert_eq.
    destruct Hw as [-> _ _]. done. }
  split; [done|]. split; [unfold current; by rewrite Hv|].
  split; [by destruct Hw'|]. split; [done|]. split; [done|].
  by destruct (wf_run cfg later st' Hw').
Qed.

End FormClaims.

(** * Further properties of the hooks *)

Section FetcherProperties.
Import Fetcher.

(** X1: from any state and over any sequence of renders and settlements,
    the hook starts exactly one fetch per render whose url differs from the
    url of the render before; a render with the same url never starts one,
    whatever has settled or failed in between. *)
Theorem fetcher_fetch_count (evs : list event) (st : state) :
  started (run evs st) = started st + url_changes (deps st) evs.
Proof.
  revert st. induction evs as [|e evs IH]; intros st; [simpl; lia|].
  rewrite fetcher_run_cons, IH. destruct e as [url|id o]; simpl.
  - rewrite render_deps. unfold useCustomFetcher.
    case_bool_decide; simpl; lia.
  - destruct (settle_keeps id o st) as [-> ->]. done.
Qed.

(** X2: in every state the hook reaches, [isError = false] comes with
    [error = ""]: the flag and the message are cleared together and set
    together. *)
Theorem fetcher_error_message_follows_flag (evs : list event) :
  isError (run evs unmounted) = false → error (run evs unmounted) = "".
Proof.
  assert (tidy unmounted) as H0 by done.
  by destruct (tidy_run evs unmounted H0).
Qed.

Lemma fetcher_error_message_follows_flag_witness :
  error (run [Render "/a"; Settle 0 (Rejected "offline"); Render "/b"]
           unmounted) = "".
Proof.
  apply (fetcher_error_message_follows_flag
           [Render "/a"; Settle 0 (Rejected "offline"); Render "/b"]).
  reflexivity.
Defined.

(** X3: in every state the hook reaches, [isLoading = true] means that a
    fetch has begun and not yet settled. *)
Theorem fetcher_loading_has_request (evs : list event) :
  isLoading (run evs unmounted) = true → inflight (run evs unmounted) ≠ [].
Proof.
  assert (tidy unmounted) as H0 by done.
  by destruct (tidy_run evs unmounted H0).
Qed.

Lemma fetcher_loading_has_request_witness :
  inflight (run [Render "/a"; Settle 0 (Rejected "offline"); Render "/b"]
              unmounted) ≠ [].
Proof.
  apply (fetcher_loading_has_request
           [Render "/a"; Settle 0 (Rejected "offline"); Render "/b"]).
  reflexivity.
Defined.

(** X4: when two requests are in flight and one of them settles,
    [isLoading] becomes false although the other is still in flight. *)
Theorem fetcher_loading_drops_early
    (st : state) (id id' : nat) (o : outcome) :
  id ∈ (inflight st).*1 →
  id' ∈ (inflight st).*1 →
  id ≠ id' →
  isLoading (settle id o st) = false ∧
  id' ∈ (inflight (settle id o st)).*1.
Proof.
  intros Hin Hin' Hne. rewrite settle_inflight by done.
  unfold fetchData_resume.
  assert (id' ∈ (filter (λ r : nat * string, r.1 ≠ id) (inflight st)).*1)
    as Hkept.
  { apply list_elem_of_fmap in Hin' as (r & -> & Hr).
    apply list_elem_of_fmap. exists r. split; [done|].
    apply list_elem_of_filter. split; [congruence|done]. }
  by destruct (try_block o).
Qed.

Lemma fetcher_loading_drops_early_witness :
  let st := run [Render "/a"; Render "/b"] unmounted in
  isLoading (settle 0 (Response 200 (Parsed JNull)) st) = false ∧
  1 ∈ (inflight (settle 0 (Response 200 (Parsed JNull)) st)).*1.
Proof.
  apply (fetcher_loading_drops_early
           (run [Render "/a"; Render "/b"] unmounted) 0 1
           (Response 200 (Parsed JNull))).
  - vm_compute. constructor.
  - vm_compute. do 2 constructor.
  - lia.
Defined.

(** X5: when the url changes from [a] to [b] while the fetch for [a] is in
    flight and both fetches succeed, [data] is the body of whichever
    settles last: if the response for [a] arrives after the one for [b],
    the hook ends up showing [a]'s data for url [b], not loading and
    without an error. *)
Theorem fetcher_last_settled_response_wins
    (st : state) (a b : string) (s0 s1 : nat) (d0 d1 : JsVal) :
  deps st ≠ Some a →
  a ≠ b →
  200 ≤ s0 ≤ 299 →
  200 ≤ s1 ≤ 299 →
  let final := run [Render a; Render b;
                    Settle (S (started st)) (Response s1 (Parsed d1));
                    Settle (started st) (Response s0 (Parsed d0))] st in
  deps final = Some b ∧ data final = d0 ∧
  isLoading final = false ∧ isError final = false.
Proof.
  intros Ha Hab H0 H1 final.
  apply ok_iff in H0. apply ok_iff in H1.
  assert (final =
          {| isLoading := false; data := d0; isError := false; error := "";
             deps := Some b;
             inflight :=
               filter (λ r, r.1 ≠ started st)
                 (filter (λ r, r.1 ≠ S (started st))
                    ((inflight st ++ [(started st, a)])
                     ++ [(S (started st), b)]));
             started := S (S (started st)) |}) as ->; [|done].
  subst final. rewrite !fetcher_run_cons. simpl run. simpl step.
  unfold useCustomFetcher at 2. rewrite bool_decide_eq_false_2 by done.
  unfold useCustomFetcher. simpl deps.
  rewrite bool_decide_eq_false_2 by congruence.
  rewrite (settle_inflight (S (started st))).
  2:{ simpl. rewrite !fmap_app, !elem_of_app. right. simpl.
      by apply list_elem_of_singleton. }
  unfold fetchData_resume at 1, try_block. rewrite H1. simpl.
  rewrite (settle_inflight (started st)).
  2:{ simpl. rewrite !filter_app, !fmap_app, !elem_of_app. left. right.
      rewrite filter_cons, filter_nil.
      destruct (decide _) as [?|Hn]; simpl in *;
        [apply list_elem_of_here|exfalso; apply Hn; lia]. }
  unfold fetchData_resume, try_block. rewrite H0. reflexivity.
Qed.

Lemma fetcher_last_settled_response_wins_witness :
  let final := run [Render "/a"; Render "/b";
                    Settle 1 (Response 200 (Parsed (JStr "b")));
                    Settle 0 (Response 200 (Parsed (JStr "a")))] unmounted in
  deps final = Some "/b" ∧ data final = JStr "a" ∧
  isLoading final = false ∧ isError final = false.
Proof.
  apply (fetcher_last_settled_response_wins unmounted "/a" "/b" 200 200
           (JStr "a") (JStr "b")); (done || lia).
Defined.

(** X6: once [isError] is true, the only thing that lowers it is a render
    with a new url; a render with the same url or any settlement, a
    successful one included, leaves it raised. *)
Theorem fetcher_error_is_sticky (st : state) (e : event) :
  isError st = true →
  isError (step st e) = false →
  ∃ url, e = Render url ∧ deps st ≠ Some url.
Proof.
  intros Ht Hf. destruct e as [url|id o]; simpl in Hf.
  - exists url. split; [done|]. intros Hd.
    unfold useCustomFetcher in Hf. rewrite bool_decide_eq_true_2 in Hf by done.
    congruence.
  - unfold settle in Hf. case_bool_decide; [|congruence].
    unfold fetchData_resume in Hf.
    destruct (try_block o); simpl in Hf; congruence.
Qed.

Lemma fetcher_error_is_sticky_witness :
  ∃ url, Render "/b" = Render url ∧
         deps (run [Render "/a"; Settle 0 (Rejected "offline")] unmounted)
         ≠ Some url.
Proof.
  apply (fetcher_error_is_sticky
           (run [Render "/a"; Settle 0 (Rejected "offline")] unmounted)
           (Render "/b")); reflexivity.
Defined.

End FetcherProperties.

Section DebouncedValueProperties.
Import Timers DebouncedValue.

(** X7: when the component unmounts after any sequence of renders and
    waits, the cleanup clears whatever timer was queued: nothing is queued
    afterwards, and however much time passes the value is not set again. *)
Theorem debounced_value_unmount_cancels (history : list event) (dt : nat) :
  let st := run history unmounted in
  pending (timers (unmount st)) = [] ∧
  debouncedValue (elapse dt (unmount st)) = debouncedValue st ∧
  emitted (elapse dt (unmount st)) = emitted st.
Proof.
  intros st.
  assert (inv st) as [Hq _] by apply inv_run, inv_unmounted.
  assert (pending (timers (unmount st)) = []) as Hp.
  { unfold unmount. destruct Hq as [He|(t & Ht & Hcl & _)].
    - destruct (cleanup st); simpl; by rewrite He.
    - rewrite Hcl. simpl. rewrite Ht, filter_cons, filter_nil.
      destruct (decide (tid t ≠ tid t)); [congruence|done]. }
  split; [done|].
  rewrite elapse_waits by (rewrite Hp; constructor).
  unfold unmount. by destruct (cleanup st).
Qed.

(** X8: after any sequence of renders and waits at most one timer is
    queued, and it carries the value of the most recent render. *)
Theorem debounced_value_single_timer_latest (history : list event) :
  let st := run history unmounted in
  length (pending (timers st)) ≤ 1 ∧
  (∀ t, t ∈ pending (timers st) → ∃ d, deps st = Some (payload t, d)).
Proof.
  intros st. split; [|apply queued_is_latest].
  assert (inv st) as [Hq _] by apply inv_run, inv_unmounted.
  destruct Hq as [->|(t & -> & _)]; simpl; lia.
Qed.

Lemma debounced_value_single_timer_latest_witness :
  ∃ d, deps (run [Render (JStr "a") None; Elapse 100;
                  Render (JStr "ab") (Some 50%Z)] unmounted)
       = Some (JStr "ab", d).
Proof.
  destruct (debounced_value_single_timer_latest
              [Render (JStr "a") None; Elapse 100;
               Render (JStr "ab") (Some 50%Z)]) as [_ H].
  apply (H (Timer 2 150 (JStr "ab"))). vm_compute. constructor.
Defined.

(** X9: the hook never makes up a value: after any sequence of renders
    that pass data (no [JsVal] is a function) and waits, [debouncedValue]
    is [undefined] or a value some render passed in, and so is every value
    a timer callback has stored. *)
Theorem debounced_value_only_inputs (history : list event) :
  let st := run history unmounted in
  (debouncedValue st = JUndefined ∨ rendered (debouncedValue st) history) ∧
  (∀ f, f ∈ emitted st → rendered (fired_payload f) history).
Proof.
  intros st. destruct (values_are_inputs history) as (_ & He & Hv).
  fold st in He, Hv. split; [|done].
  rewrite Hv. destruct (last (emitted st)) as [f|] eqn:Hl; [|by left].
  right. simpl. apply He. apply last_Some in Hl as [l ->].
  apply elem_of_app. right. by left.
Qed.

Lemma debounced_value_only_inputs_witness :
  rendered (JStr "a")
    [Render (JStr "a") None; Elapse 500; Render (JStr "ab") None].
Proof.
  destruct (debounced_value_only_inputs
              [Render (JStr "a") None; Elapse 500; Render (JStr "ab") None])
    as [_ H].
  apply (H (Firing 500 1 (JStr "a"))). vm_compute. constructor.
Defined.

(** X10: a value that keeps changing starves the hook: after any history
    and for every delay the host's timers grant as it is, over renders that
    each pass a value different from the one before and each come less than
    [delay] ms after the one before, [debouncedValue] is not updated
    once. *)
Theorem debounced_value_starves_under_change
    (history : list event) (delay_arg : option Z) (vs : list (JsVal * nat)) :
  let st := run history unmounted in
  honoured (default default_delay delay_arg) →
  Forall (λ c, c.2 < Z.to_nat (default default_delay delay_arg)) vs →
  keeps_changing (deps st) (default default_delay delay_arg) vs = true →
  debouncedValue (run (typing delay_arg vs) st) = debouncedValue st ∧
  emitted (run (typing delay_arg vs) st) = emitted st.
Proof.
  intros st Hh Hg Hk. apply typing_starves; [| |done].
  - apply inv_run, inv_unmounted.
  - by rewrite (timeout_ms_honoured _ Hh).
Qed.

Lemma debounced_value_starves_under_change_witness :
  debouncedValue
    (run (typing None [(JStr "a", 499); (JStr "ab", 499); (JStr "abc", 499)])
       (run [] unmounted)) = JUndefined.
Proof.
  apply (debounced_value_starves_under_change [] None
           [(JStr "a", 499); (JStr "ab", 499); (JStr "abc", 499)]).
  - vm_compute. split; discriminate.
  - repeat constructor; vm_compute; lia.
  - reflexivity.
Defined.

End DebouncedValueProperties.

Section DebouncedFunctionProperties.
Import Timers DebouncedFunction.

(** X11: the closures of one hook instance share one timer.  After any
    history, calls through closures with whatever functions and whatever
    delays the host's timers grant as they are, each followed by less than
    its own delay, invoke nothing; a last call then leaves only its own
    timer queued, and once its delay has passed the only invocation made is
    that of its function with its arguments. *)
Theorem debounced_function_shares_timer
    (history : list event) (cs : list timed_call)
    (f : fn_ref) (delay_arg : option Z) (last : list JsVal) :
  let st := run history mounted in
  let st1 := run (timed_events cs) st in
  let st' := useDebouncedFunction f delay_arg last st1 in
  let d := Z.to_nat (default default_delay delay_arg) in
  honoured (default default_delay delay_arg) →
  Forall (λ c, honoured (default default_delay (tc_delay c)) ∧
               tc_gap c < Z.to_nat (default default_delay (tc_delay c))) cs →
  calls st' = calls st ∧
  pending (timers st')
    = [Timer (next_id (timers st1)) (now (timers st1) + d) (Call f last)] ∧
  (∀ dt, d ≤ dt →
     calls (elapse dt st')
       = calls st ++ [Firing (now (timers st1) + d) (next_id (timers st1))
                        (Call f last)]).
Proof.
  intros st st1 st' d Hh Hg.
  assert (inv st) as Hi by apply call_inv_run, inv_mounted.
  assert (inv st1) as Hi1 by by apply call_inv_run.
  assert (Forall (λ c, tc_gap c
                       < timeout_ms (default default_delay (tc_delay c))) cs)
    as Hg'.
  { eapply Forall_impl; [exact Hg|]. simpl. intros c [Hc Hlt].
    by rewrite (timeout_ms_honoured _ Hc). }
  destruct (mixed_calls_wait cs st Hi Hg') as [Hc _]. fold st1 in Hc.
  subst st'. unfold useDebouncedFunction. rewrite call_arms by done.
  rewrite (timeout_ms_honoured _ Hh). fold d.
  simpl. split; [done|]. split; [done|].
  intros dt Hdt.
  rewrite (call_elapse_fires dt _
             (Timer (next_id (timers st1)) (now (timers st1) + d)
                (Call f last))) by (done || (simpl; lia)).
  simpl. by rewrite Hc.
Qed.

Lemma debounced_function_shares_timer_witness :
  let st1 := run (timed_events
                    [TimedCall 1 (Some 1000%Z) [JStr "old"] 400])
               (run [] mounted) in
  calls (elapse 50
           (useDebouncedFunction 2 (Some 50%Z) [JStr "new"] st1))
  = [Firing 450 2 (Call 2 [JStr "new"])].
Proof.
  destruct (debounced_function_shares_timer []
              [TimedCall 1 (Some 1000%Z) [JStr "old"] 400]
              2 (Some 50%Z) [JStr "new"]) as (_ & _ & H).
  - vm_compute. split; discriminate.
  - constructor; [|constructor].
    split; [vm_compute; split; discriminate|vm_compute; lia].
  - apply (H 50). vm_compute. lia.
Defined.

(** X12: calls that are spaced out are all carried out: after any history
    and for every delay the host's timers grant as it is, when every call
    of a closure is followed by at least [delay] ms, each call's arguments
    are passed to the wrapped function, in call order, each [delay] ms
    after its call, and no timer is left queued. *)
Theorem debounced_function_spaced_calls_all_run
    (history : list event) (f : fn_ref) (delay_arg : option Z)
    (cs : list (list JsVal * nat)) :
  let st := run history mounted in
  let d := Z.to_nat (default default_delay delay_arg) in
  let st' := run (spaced_events f delay_arg cs) st in
  honoured (default default_delay delay_arg) →
  Forall (λ c, d ≤ c.2) cs →
  calls st'
    = calls st ++ spaced_log f d (now (timers st)) (next_id (timers st)) cs ∧
  (cs ≠ [] → pending (timers st') = []).
Proof.
  intros st d st' Hh Hg.
  assert (inv st) as Hi by apply call_inv_run, inv_mounted.
  pose proof (timeout_ms_honoured _ Hh) as Hd. fold d in Hd.
  destruct cs as [|c cs].
  - subst st'. simpl. by rewrite app_nil_r.
  - subst st'. rewrite spaced_calls_all_run; [|done|by rewrite Hd|done].
    by rewrite Hd.
Qed.

Lemma debounced_function_spaced_calls_all_run_witness :
  calls (run (spaced_events 7 (Some 300%Z)
                [([JStr "a"], 300); ([JStr "b"], 450)])
           (run [] mounted))
  = [Firing 300 1 (Call 7 [JStr "a"]);
     Firing 600 2 (Call 7 [JStr "b"])].
Proof.
  apply (debounced_function_spaced_calls_all_run [] 7 (Some 300%Z)
           [([JStr "a"], 300); ([JStr "b"], 450)]).
  - vm_compute. split; discriminate.
  - repeat constructor; vm_compute; lia.
Defined.

(** X13: over any sequence of calls and waits, the wrapped function is
    never invoked more often than the debounced function was called: the
    invocations made and the timer still queued together number at most
    the calls, and at most one timer is queued. *)
Theorem debounced_function_invocations_bounded (evs : list event) :
  let st := run evs mounted in
  length (calls st) + length (pending (timers st)) ≤ requests evs ∧
  length (pending (timers st)) ≤ 1.
Proof.
  intros st. split.
  - pose proof (requests_bound evs mounted) as H. simpl in H. exact H.
  - assert (inv st) as [Hq _] by apply call_inv_run, inv_mounted.
    destruct Hq as [->|(t & -> & _)]; simpl; lia.
Qed.

End DebouncedFunctionProperties.
